(** * Ring-kernel particle detector (GranImage, Day 3 notebook)

    A shallow embedding of the particle-finding script of
    [GranImage_Day3_ScikitParticleFinding2.ipynb]: the kernel builders
    [disckernel] and [circkernel], the image normalisation, the
    convolution followed by the division by its maximum, and the last
    revision of [convcirc] with its weighted sub-pixel average.

    Numbers.  A numpy [float64] is modelled by [fval]: a rational for a
    finite value, and the three IEEE specials that the script can produce
    by dividing by zero.  Finite arithmetic is exact (no rounding, no
    overflow, no signed zero); the results below are statements about this
    idealised arithmetic.  Integers are [Z].  A 2-D array is a list of
    rows. *)

From Stdlib Require Import ZArith QArith Qround Qabs List Bool Lia Lqa.
Import ListNotations.

Local Open Scope Z_scope.
Local Open Scope Q_scope.

(* ================================================================== *)
(** ** Exceptions *)

Inductive exn : Type :=
| ValueError   (* negative dimensions, empty reduction, shapes not aligned *)
| IndexError.  (* integer index out of bounds *)

Inductive result (A : Type) : Type :=
| Ok (a : A)
| Raise (e : exn).

Arguments Ok {A} a.
Arguments Raise {A} e.

Definition bind {A B : Type} (r : result A) (k : A -> result B) : result B :=
  match r with
  | Ok a => k a
  | Raise e => Raise e
  end.

Notation "x <- r ;; k" := (bind r (fun x => k))
  (at level 61, r at next level, right associativity).
Notation "' pat <- r ;; k" := (bind r (fun x => match x with pat => k end))
  (at level 61, pat pattern, r at next level, right associativity).

Fixpoint mapM {A B : Type} (f : A -> result B) (l : list A) : result (list B) :=
  match l with
  | [] => Ok []
  | a :: l' => b <- f a ;; bs <- mapM f l' ;; Ok (b :: bs)
  end.

(* ================================================================== *)
(** ** Floating-point values *)

Inductive fval : Type :=
| Fin (q : Q)
| PInf
| NInf
| NaN.

Definition Qlt_bool (a b : Q) : bool := negb (Qle_bool b a).

Definition fneg (a : fval) : fval :=
  match a with
  | Fin q => Fin (- q)
  | PInf => NInf
  | NInf => PInf
  | NaN => NaN
  end.

Definition fadd (a b : fval) : fval :=
  match a, b with
  | Fin x, Fin y => Fin (x + y)
  | NaN, _ | _, NaN => NaN
  | PInf, NInf | NInf, PInf => NaN
  | PInf, _ | _, PInf => PInf
  | NInf, _ | _, NInf => NInf
  end.

Definition fsub (a b : fval) : fval := fadd a (fneg b).

(** Sign of a finite value used against an infinity: [None] for zero. *)
Definition Qsign (q : Q) : option bool :=
  if Qeq_bool q 0 then None else Some (Qlt_bool 0 q).

Definition finf (positive : bool) : fval := if positive then PInf else NInf.

Definition fmul (a b : fval) : fval :=
  match a, b with
  | Fin x, Fin y => Fin (x * y)
  | NaN, _ | _, NaN => NaN
  | Fin x, PInf | PInf, Fin x =>
      match Qsign x with None => NaN | Some s => finf s end
  | Fin x, NInf | NInf, Fin x =>
      match Qsign x with None => NaN | Some s => finf (negb s) end
  | PInf, PInf | NInf, NInf => PInf
  | PInf, NInf | NInf, PInf => NInf
  end.

(** numpy's true division: a warning, never an exception. *)
Definition fdiv (a b : fval) : fval :=
  match a, b with
  | NaN, _ | _, NaN => NaN
  | Fin x, Fin y =>
      if Qeq_bool y 0
      then match Qsign x with None => NaN | Some s => finf s end
      else Fin (x / y)
  | Fin _, PInf | Fin _, NInf => Fin 0
  | PInf, Fin y => finf (Qle_bool 0 y)
  | NInf, Fin y => finf (negb (Qle_bool 0 y))
  | _, _ => NaN
  end.

(** Comparisons; every comparison with NaN is false. *)
Definition flt (a b : fval) : bool :=
  match a, b with
  | NaN, _ | _, NaN => false
  | Fin x, Fin y => Qlt_bool x y
  | NInf, NInf => false
  | NInf, _ => true
  | _, PInf => match a with PInf => false | _ => true end
  | _, _ => false
  end.

Definition feqb (a b : fval) : bool :=
  match a, b with
  | Fin x, Fin y => Qeq_bool x y
  | PInf, PInf | NInf, NInf => true
  | _, _ => false
  end.

Definition fle (a b : fval) : bool := flt a b || feqb a b.

Definition fabs (a : fval) : fval :=
  match a with
  | Fin q => Fin (Qabs q)
  | PInf | NInf => PInf
  | NaN => NaN
  end.

(** Same value: finite values up to equality of rationals. *)
Definition feq (a b : fval) : Prop :=
  match a, b with
  | Fin x, Fin y => x == y
  | PInf, PInf | NInf, NInf | NaN, NaN => True
  | _, _ => False
  end.

Definition is_nan (a : fval) : bool :=
  match a with NaN => true | _ => false end.

(* ================================================================== *)
(** ** The numpy primitives the script calls *)

Definition grid : Type := list (list fval).

(** Sum of a list of rationals, added from the left as [np.sum] does. *)
Definition Qsum (l : list Q) : Q := fold_left Qplus l 0.

(** A grid of finite values. *)
Definition finite (x : list (list Q)) : grid := map (map Fin) x.

(** [arr.size] *)
Definition size {A : Type} (g : list (list A)) : nat := length (concat g).

(** [np.arange(a, b)] on integers *)
Definition arange (a b : Z) : list Z :=
  map (fun k => (a + Z.of_nat k)%Z) (seq 0 (Z.to_nat (b - a))).

(** [np.sum] *)
Definition sum1 (l : list fval) : fval := fold_left fadd l (Fin 0).
Definition np_sum (g : grid) : fval := sum1 (concat g).

(** [np.mean]: the sum over the number of elements; NaN on an empty array. *)
Definition np_mean (g : grid) : fval :=
  fdiv (np_sum g) (Fin (inject_Z (Z.of_nat (size g)))).

(** [np.max] propagates NaN and raises on an empty array. *)
Definition fmax (a b : fval) : fval :=
  if is_nan a then NaN else if is_nan b then NaN
  else if flt a b then b else a.

Definition max1 (l : list fval) : result fval :=
  match l with
  | [] => Raise ValueError
  | v :: vs => Ok (fold_left fmax vs v)
  end.

Definition np_max (g : grid) : result fval := max1 (concat g).

(** [arr - s] and [arr / s] for a scalar [s] *)
Definition sub_scalar (g : grid) (s : fval) : grid :=
  map (map (fun v => fsub v s)) g.
Definition div_scalar (g : grid) (s : fval) : grid :=
  map (map (fun v => fdiv v s)) g.

(** [bool] cast to [float64] *)
Definition astype_float (b : bool) : fval := Fin (if b then 1 else 0).

(** Python slice bounds [l[start:stop]]: a negative bound counts from the
    end, and both are clipped to the length. *)
Definition slice_bound (n i : Z) : Z :=
  if (i <? 0)%Z then Z.max 0 (i + n) else Z.min i n.

Definition pyslice {A : Type} (start stop : Z) (l : list A) : list A :=
  let n := Z.of_nat (length l) in
  let s := slice_bound n start in
  let e := slice_bound n stop in
  firstn (Z.to_nat (e - s)) (skipn (Z.to_nat s) l).

(** Integer index [i] on an axis of length [n]. *)
Definition pyindex (n : nat) (i : Z) : result nat :=
  let i' := if (i <? 0)%Z then (i + Z.of_nat n)%Z else i in
  if ((0 <=? i') && (i' <? Z.of_nat n))%Z%bool
  then Ok (Z.to_nat i') else Raise IndexError.

Definition nrows (g : grid) : nat := length g.
Definition ncols (g : grid) : nat :=
  match g with [] => O | r :: _ => length r end.

(** [g[start:stop, y]] *)
Definition col_slice (g : grid) (start stop y : Z) : result (list fval) :=
  j <- pyindex (ncols g) y ;;
  Ok (map (fun row => nth j row NaN) (pyslice start stop g)).

(** [g[x, start:stop]] *)
Definition row_slice (g : grid) (x start stop : Z) : result (list fval) :=
  i <- pyindex (nrows g) x ;;
  Ok (pyslice start stop (nth i g [])).

(** [np.dot] of an integer vector with a float vector. *)
Definition dot_terms (a : list Z) (b : list fval) : list fval :=
  map (fun kc => fmul (Fin (inject_Z (fst kc))) (snd kc)) (combine a b).

Definition np_dot (a : list Z) (b : list fval) : result fval :=
  if Nat.eqb (length a) (length b)
  then Ok (sum1 (dot_terms a b))
  else Raise ValueError.

(* ================================================================== *)
(** ** Kernel builders (cell 11) *)

Definition sq (q : Q) : Q := q * q.

(** [x, y = np.indices((kdim, kdim))]: cell (i,j) holds x = i and y = j. *)
Definition indices (kdim : Z) : list Z := arange 0 kdim.

Definition kernel_dim (R : Q) : Z := Qceiling (2 * (R + (1#2))).
Definition kernel_centre (kdim : Z) : Q := inject_Z (kdim - 1) / 2.

Definition dist2 (c : Q) (x y : Z) : Q :=
  sq (inject_Z x - c) + sq (inject_Z y - c).

Definition in_disc (R c : Q) (x y : Z) : bool :=
  Qlt_bool (dist2 c x y) (sq R).

Definition in_ring (R w c : Q) (x y : Z) : bool :=
  Qlt_bool (dist2 c x y) (sq R) && Qlt_bool (sq (R - w)) (dist2 c x y).

Definition mask (kdim : Z) (test : Z -> Z -> bool) : list (list bool) :=
  map (fun x => map (fun y => test x y) (indices kdim)) (indices kdim).

(** [kernel - np.mean(kernel)] for a boolean array *)
Definition zero_mean (kernel : list (list bool)) : grid :=
  let k := map (map astype_float) kernel in
  sub_scalar k (np_mean k).

Definition disckernel (R : Q) : result (grid * Q) :=
  let kdim := kernel_dim R in
  let c := kernel_centre kdim in
  if (kdim <? 0)%Z then Raise ValueError   (* np.indices: negative dimensions *)
  else Ok (zero_mean (mask kdim (in_disc R c)), c).

Definition circkernel (R w : Q) : result (grid * Q) :=
  let kdim := kernel_dim R in
  let c := kernel_centre kdim in
  if (kdim <? 0)%Z then Raise ValueError   (* np.zeros: negative dimensions *)
  else Ok (zero_mean (mask kdim (in_ring R w c)), c).

(* ================================================================== *)
(** ** Image normalisation (cells 8 and 15)

    [image = image - np.mean(image); image = image/np.max(image)] *)

Definition normalize (image : grid) : result grid :=
  let image1 := sub_scalar image (np_mean image) in
  m <- np_max image1 ;;
  Ok (div_scalar image1 m).

(* ================================================================== *)
(** ** Convolution and its normalisation (cells 16, 19, 26, 30) *)

(** Pair every element with its index. *)
Definition indexed {A : Type} (l : list A) : list (Z * A) :=
  combine (arange 0 (Z.of_nat (length l))) l.

(** [image[x][y]] with [mode='constant', cval=0.0] outside the array. *)
Definition pixel (image : grid) (x y : Z) : fval :=
  if ((0 <=? x) && (0 <=? y))%Z%bool
  then match nth_error image (Z.to_nat x) with
       | Some row => nth (Z.to_nat y) row (Fin 0)
       | None => Fin 0
       end
  else Fin 0.

(** Modelled from the spec: [scipy.ndimage.convolve] is a library routine
    outside the repository.  Section 4.3: the output has the shape of the
    input, the kernel is centred on the pixel, the cell (x,y) holds
    the sum over the kernel taps (i,j) of [kernel(i,j) * image(x-i, y-j)],
    and taps that fall outside the image contribute zero.  The tap offsets
    are counted from the centre cell [(len/2, len/2)] of the kernel. *)
Definition convolve_at (image kernel : grid) (x y : Z) : fval :=
  let ci := (Z.of_nat (nrows kernel) / 2)%Z in
  let cj := (Z.of_nat (ncols kernel) / 2)%Z in
  sum1 (concat
    (map (fun irow =>
       map (fun jk =>
              fmul (snd jk)
                   (pixel image (x - (fst irow - ci)) (y - (fst jk - cj))))
           (indexed (snd irow)))
       (indexed kernel))).

Definition convolve (image kernel : grid) : grid :=
  map (fun xrow =>
         map (fun yv => convolve_at image kernel (fst xrow) (fst yv))
             (indexed (snd xrow)))
      (indexed image).

(** [conv = ndimage.convolve(image, ckern, mode='constant', cval=0.0);
     conv = conv/np.max(conv)] *)
Definition correlate (image kernel : grid) : result grid :=
  let conv := convolve image kernel in
  m <- np_max conv ;;
  Ok (div_scalar conv m).

(** Largest absolute value of a map. *)
Definition max_abs (g : grid) : result fval := np_max (map (map fabs) g).

(* ================================================================== *)
(** ** Peak extraction *)

Definition coords (g : grid) : list (Z * Z) :=
  concat (map (fun xrow => map (fun yv => (fst xrow, fst yv))
                               (indexed (snd xrow)))
              (indexed g)).

Definition value_at (g : grid) (xy : Z * Z) : fval :=
  match nth_error g (Z.to_nat (fst xy)) with
  | Some row => nth (Z.to_nat (snd xy)) row NaN
  | None => NaN
  end.

Definition near (d : Z) (a b : Z * Z) : bool :=
  ((Z.abs (fst a - fst b) <=? d) && (Z.abs (snd a - snd b) <=? d))%Z%bool.

(** Row-major scan order. *)
Definition before (a b : Z * Z) : bool :=
  ((fst a <? fst b) || ((fst a =? fst b) && (snd a <? snd b)))%Z%bool.

(** A cell is a local maximum when no cell of its neighbourhood is larger
    and every cell of the neighbourhood scanned before it is smaller. *)
Definition local_max (g : grid) (d : Z) (a : Z * Z) : bool :=
  forallb (fun b =>
             if near d a b
             then if before b a then flt (value_at g b) (value_at g a)
                  else fle (value_at g b) (value_at g a)
             else true)
          (coords g).

(** Modelled from the spec: [skimage.feature.peak_local_max] is a library
    routine outside the repository.  Section 4.4: a candidate is accepted
    if it is the maximum value within its [min_distance] neighbourhood,
    ties broken by the first encountered in row-major scan order, and its
    value is at least [threshold].  The neighbourhood is the square window
    of half-width [min_distance]; the peaks are listed in scan order. *)
Definition peak_local_max (conv : grid) (min_distance : Z) (threshold_abs : Q)
  : list (Z * Z) :=
  filter (fun a => local_max conv min_distance a
                   && fle (Fin threshold_abs) (value_at conv a))
         (coords conv).

(** [convcirc(image, R, w, thresh)] as revised in cell 26: the integer peaks. *)
Definition convcirc_peaks (image : grid) (R w thresh : Q)
  : result (list (Z * Z)) :=
  ' (ckern, _) <- circkernel R w ;;
  conv <- correlate image ckern ;;
  Ok (peak_local_max conv (Qceiling R) thresh).

(* ================================================================== *)
(** ** Sub-pixel refinement (cell 30) *)

(** [p = 2]: pixels averaged on each side. *)
Definition p : Z := 2.

(** [prange = np.arange(-p, p+1)] *)
Definition prange : list Z := arange (- p) (p + 1).

(** [np.sum(np.dot(t+prange, window)) / np.sum(window)] *)
Definition centroid (t : Z) (window : list fval) : result fval :=
  num <- np_dot (map (Z.add t) prange) window ;;
  Ok (fdiv num (sum1 window)).

(** One round of the loop, for the peak [(x0, y0)]. *)
Definition refine_peak (conv : grid) (xy : Z * Z) : result (fval * fval) :=
  let x0 := fst xy in
  let y0 := snd xy in
  col <- col_slice conv (x0 - p) (x0 + p + 1) y0 ;;
  fx <- centroid x0 col ;;
  row <- row_slice conv x0 (y0 - p) (y0 + p + 1) ;;
  fy <- centroid y0 row ;;
  Ok (fx, fy).

Definition refine (conv : grid) (peaks : list (Z * Z))
  : result (list (fval * fval)) :=
  mapM (refine_peak conv) peaks.

(** [convcirc(image, R, w, thresh)] in its last revision. *)
Definition convcirc (image : grid) (R w thresh : Q)
  : result (list (fval * fval)) :=
  ' (ckern, _) <- circkernel R w ;;
  conv <- correlate image ckern ;;
  refine conv (peak_local_max conv (Qceiling R) thresh).

(* ================================================================== *)
(** ** Remainders of the refined coordinates (end of cell 30) *)






(* ================================================================== *)
(** ** Thresholding (Day 2 notebook,
       [GranImage_Day2_ScikitParticleFinding1.ipynb])

    [img = img_as_ubyte(img[:,:,2]); threshold = img > 0.8*img.mean()],
    and the same with 0.9 in the next cell.  An image of unsigned bytes
    is a grid of integers. *)

Definition ubyte_image (img : list (list Z)) : grid :=
  map (map (fun v => Fin (inject_Z v))) img.

Definition threshold_above (f : Q) (img : list (list Z)) : list (list bool) :=
  let level := fmul (Fin f) (np_mean (ubyte_image img)) in
  map (map (fun v => flt level (Fin (inject_Z v)))) img.

(* ================================================================== *)
(** ** Grid symmetries ([np.flipud], [np.fliplr], [np.rot90]) *)

Definition np_flipud (g : grid) : grid := rev g.
Definition np_fliplr (g : grid) : grid := map (@rev fval) g.

Definition column (j : nat) (g : grid) : list fval :=
  flat_map (fun row => match nth_error row j with
                       | Some v => [v]
                       | None => []
                       end) g.

Definition transpose (g : grid) : grid :=
  map (fun j => column j g) (seq 0 (ncols g)).

(** [np.rot90(g)] is [transpose(flip(g, axis=1))]. *)
Definition np_rot90 (g : grid) : grid := transpose (np_fliplr g).

(** Cell (i,j) of a grid. *)
Definition cell (g : grid) (i j : nat) : fval := nth j (nth i g []) NaN.

(** All rows have [m] cells. *)
Definition rectangular (m : nat) (g : grid) : Prop :=
  Forall (fun row => length row = m) g.

(* ================================================================== *)
(** ** Sample inputs *)


(** A 9x9 image: four bright pixels around (4,4) and one dark pixel. *)
Definition blank9 : list Q := [0; 0; 0; 0; 0; 0; 0; 0; 0].
Definition spots_image : grid :=
  finite [ blank9; blank9; blank9;
           [0; 0; 0; 1; 0; 1; 0; 0; 0];
           blank9;
           [0; 0; 0; 1; 0; 1; 0; 0; 0];
           [0; 0; 0; -(10); 0; 0; 0; 0; 0];
           blank9; blank9 ].

(** A 5x5 map of ones. *)
Definition ones5 : grid :=
  finite [ [1; 1; 1; 1; 1]; [1; 1; 1; 1; 1]; [1; 1; 1; 1; 1];
           [1; 1; 1; 1; 1]; [1; 1; 1; 1; 1] ].

(** A 5x5 map with a single skewed bump at (2,2). *)
Definition bump5 : grid :=
  finite [ [0; 0; 1; 0; 0]; [0; 1; 2; 1; 0]; [1; 2; 4; 3; 1];
           [0; 1; 3; 1; 0]; [0; 0; 1; 0; 0] ].

(* ================================================================== *)
(** * Properties *)

(** ** Rational comparisons *)

Lemma Qlt_bool_iff (a b : Q) : Qlt_bool a b = true <-> a < b.
Proof.
  unfold Qlt_bool. rewrite negb_true_iff.
  split; intro H.
  - apply Qnot_le_lt. intro Hle. apply Qle_bool_iff in Hle. congruence.
  - destruct (Qle_bool b a) eqn:E; [|reflexivity].
    apply Qle_bool_iff in E. lra.
Qed.

Lemma Qlt_bool_false (a b : Q) : Qlt_bool a b = false <-> b <= a.
Proof.
  unfold Qlt_bool. rewrite negb_false_iff. apply Qle_bool_iff.
Qed.

Lemma Qeq_bool_false (a b : Q) : ~ a == b -> Qeq_bool a b = false.
Proof.
  intro H. destruct (Qeq_bool a b) eqn:E; [|reflexivity].
  apply Qeq_bool_iff in E. contradiction.
Qed.

Lemma Qeq_bool_true (a b : Q) : a == b -> Qeq_bool a b = true.
Proof. apply Qeq_bool_iff. Qed.

Lemma Qlt_bool_compat (a a' b b' : Q) :
  a == a' -> b == b' -> Qlt_bool a b = Qlt_bool a' b'.
Proof.
  intros Ha Hb. apply eq_true_iff_eq.
  rewrite !Qlt_bool_iff, Ha, Hb. reflexivity.
Qed.

(** ** Sums and maxima of finite values *)

Lemma fold_fadd_Fin (l : list Q) (a : Q) :
  fold_left fadd (map Fin l) (Fin a) = Fin (fold_left Qplus l a).
Proof.
  revert a. induction l as [|q l IH]; intro a; simpl; [reflexivity|].
  apply IH.
Qed.

Lemma sum1_Fin (l : list Q) : sum1 (map Fin l) = Fin (Qsum l).
Proof. apply fold_fadd_Fin. Qed.

Lemma fold_Qplus_acc (l : list Q) (a : Q) :
  fold_left Qplus l a == a + Qsum l.
Proof.
  unfold Qsum. revert a. induction l as [|q l IH]; intro a; simpl.
  - lra.
  - rewrite (IH (a + q)), (IH (0 + q)). lra.
Qed.

Lemma Qsum_cons (q : Q) (l : list Q) : Qsum (q :: l) == q + Qsum l.
Proof. unfold Qsum at 1. simpl. rewrite fold_Qplus_acc. lra. Qed.

Lemma Qsum_shift (l : list Q) (m : Q) :
  Qsum (map (fun v => v - m) l) == Qsum l - inject_Z (Z.of_nat (length l)) * m.
Proof.
  induction l as [|q l IH].
  - unfold Qsum. simpl. ring.
  - cbn [map length]. rewrite !Qsum_cons, IH.
    rewrite Nat2Z.inj_succ, <- Z.add_1_r, inject_Z_plus.
    change (inject_Z 1) with 1. ring.
Qed.

Lemma Qsum_scale (l : list Q) (m : Q) :
  Qsum (map (fun v => v / m) l) == Qsum l / m.
Proof.
  induction l as [|q l IH].
  - unfold Qsum. simpl. unfold Qdiv. ring.
  - cbn [map]. rewrite !Qsum_cons, IH. unfold Qdiv. ring.
Qed.

Lemma concat_map_map {A B : Type} (f : A -> B) (g : list (list A)) :
  concat (map (map f) g) = map f (concat g).
Proof. symmetry. apply concat_map. Qed.

(** ** Finite grids *)

Lemma concat_finite (x : list (list Q)) :
  concat (finite x) = map Fin (concat x).
Proof. unfold finite. apply concat_map_map. Qed.

Lemma size_finite (x : list (list Q)) : size (finite x) = size x.
Proof. unfold size. rewrite concat_finite. apply length_map. Qed.

Lemma size_map_map {A B : Type} (f : A -> B) (g : list (list A)) :
  size (map (map f) g) = size g.
Proof. unfold size. rewrite concat_map_map. apply length_map. Qed.

Lemma np_sum_finite (x : list (list Q)) :
  np_sum (finite x) = Fin (Qsum (concat x)).
Proof. unfold np_sum. rewrite concat_finite. apply sum1_Fin. Qed.

Lemma inject_nat_nonzero (n : nat) :
  n <> O -> ~ inject_Z (Z.of_nat n) == 0.
Proof.
  intros Hn H. unfold Qeq in H. simpl in H. lia.
Qed.

Lemma np_mean_finite (x : list (list Q)) :
  size x <> O ->
  np_mean (finite x)
  = Fin (Qsum (concat x) / inject_Z (Z.of_nat (size x))).
Proof.
  intro Hn. unfold np_mean. rewrite np_sum_finite, size_finite.
  unfold fdiv. rewrite Qeq_bool_false; [reflexivity|].
  apply inject_nat_nonzero, Hn.
Qed.

Lemma sub_scalar_finite (x : list (list Q)) (m : Q) :
  sub_scalar (finite x) (Fin m) = finite (map (map (fun v => v - m)) x).
Proof.
  unfold sub_scalar, finite. rewrite !map_map.
  apply map_ext. intro row. rewrite !map_map. reflexivity.
Qed.

(** Subtracting the mean leaves a grid whose entries add up to zero. *)
Lemma deviations_sum_zero (x : list (list Q)) :
  size x <> O ->
  Qsum (concat (map (map (fun v =>
          v - Qsum (concat x) / inject_Z (Z.of_nat (size x)))) x)) == 0.
Proof.
  intro Hn. rewrite concat_map_map, Qsum_shift.
  fold (size x). field. apply inject_nat_nonzero, Hn.
Qed.

(** ** Shape of the kernel *)

Lemma length_arange (a b : Z) : length (arange a b) = Z.to_nat (b - a).
Proof. unfold arange. rewrite length_map, length_seq. reflexivity. Qed.

Lemma nth_map_lt {A B : Type} (f : A -> B) (l : list A) (i : nat)
      (d : B) (d' : A) :
  (i < length l)%nat -> nth i (map f l) d = f (nth i l d').
Proof.
  revert i. induction l as [|a l IH]; intros [|i] Hi; simpl in *;
    try lia; [reflexivity|].
  apply IH. lia.
Qed.

Lemma nth_arange (a b d : Z) (i : nat) :
  (i < Z.to_nat (b - a))%nat -> nth i (arange a b) d = (a + Z.of_nat i)%Z.
Proof.
  intro Hi. unfold arange.
  rewrite (nth_map_lt _ _ _ _ O) by (rewrite length_seq; exact Hi).
  rewrite seq_nth by exact Hi. reflexivity.
Qed.

Lemma length_indices (kdim : Z) : length (indices kdim) = Z.to_nat kdim.
Proof. unfold indices. rewrite length_arange. f_equal. lia. Qed.

Lemma nth_indices (kdim d : Z) (i : nat) :
  (i < Z.to_nat kdim)%nat -> nth i (indices kdim) d = Z.of_nat i.
Proof.
  intro Hi. unfold indices. rewrite nth_arange; [lia|].
  replace (kdim - 0)%Z with kdim by lia. exact Hi.
Qed.

Lemma length_mask (kdim : Z) (test : Z -> Z -> bool) :
  length (mask kdim test) = Z.to_nat kdim.
Proof. unfold mask. rewrite length_map. apply length_indices. Qed.

Lemma mask_rows (kdim : Z) (test : Z -> Z -> bool) (row : list bool) :
  In row (mask kdim test) -> length row = Z.to_nat kdim.
Proof.
  unfold mask. intro H. apply in_map_iff in H. destruct H as [x [<- _]].
  rewrite length_map. apply length_indices.
Qed.

Lemma length_concat_const {A : Type} (g : list (list A)) (m : nat) :
  (forall row, In row g -> length row = m) ->
  length (concat g) = (length g * m)%nat.
Proof.
  induction g as [|r g IH]; intro H; simpl; [reflexivity|].
  rewrite length_app, (H r (or_introl eq_refl)), IH; [lia|].
  intros row Hrow. apply H. right. exact Hrow.
Qed.

Lemma size_mask (kdim : Z) (test : Z -> Z -> bool) :
  size (mask kdim test) = (Z.to_nat kdim * Z.to_nat kdim)%nat.
Proof.
  unfold size. rewrite (length_concat_const _ (Z.to_nat kdim)).
  - rewrite length_mask. reflexivity.
  - apply mask_rows.
Qed.

Lemma kernel_dim_ge_2 (R : Q) : 0 < R -> (2 <= kernel_dim R)%Z.
Proof.
  intro HR. unfold kernel_dim.
  pose proof (Qle_ceiling (2 * (R + (1 # 2)))) as H.
  assert (Hlt : inject_Z 1 < inject_Z (Qceiling (2 * (R + (1 # 2))))).
  { change (inject_Z 1) with 1. lra. }
  rewrite <- Zlt_Qlt in Hlt. lia.
Qed.

Lemma circkernel_ok (R w : Q) :
  (0 <= kernel_dim R)%Z ->
  circkernel R w
  = Ok (zero_mean (mask (kernel_dim R)
                        (in_ring R w (kernel_centre (kernel_dim R)))),
        kernel_centre (kernel_dim R)).
Proof.
  intro H. unfold circkernel.
  destruct (kernel_dim R <? 0)%Z eqn:E; [|reflexivity].
  apply Z.ltb_lt in E. lia.
Qed.

Lemma astype_float_finite (m : list (list bool)) :
  map (map astype_float) m
  = finite (map (map (fun b : bool => if b then 1 else 0)) m).
Proof.
  unfold finite. rewrite map_map. apply map_ext. intro row.
  rewrite map_map. reflexivity.
Qed.

Lemma zero_mean_finite (m : list (list bool)) :
  size m <> O ->
  exists x mu,
    zero_mean m = finite (map (map (fun v => v - mu)) x) /\
    x = map (map (fun b : bool => if b then 1 else 0)) m /\
    mu = Qsum (concat x) / inject_Z (Z.of_nat (size x)).
Proof.
  intro Hn. eexists. eexists. split; [|split; reflexivity].
  unfold zero_mean. cbv zeta. rewrite astype_float_finite.
  rewrite np_mean_finite by (rewrite size_map_map; exact Hn).
  apply sub_scalar_finite.
Qed.

(** C1. For every radius [R > 0] and ring width [0 < w <= R], [circkernel]
    returns a kernel, the membership grid minus its mean, whose entries
    add up to exactly zero in exact arithmetic. *)
Theorem circkernel_sum_zero (R w : Q) :
  0 < R -> 0 < w -> w <= R ->
  exists k c s,
    circkernel R w = Ok (k, c) /\ np_sum k = Fin s /\ s == 0.
Proof.
  intros HR _ _. pose proof (kernel_dim_ge_2 R HR) as HK.
  rewrite circkernel_ok by lia.
  set (m := mask _ _).
  assert (Hn : size m <> O).
  { unfold m. rewrite size_mask. nia. }
  destruct (zero_mean_finite m Hn) as [x [mu [Hz [Hx Hmu]]]].
  exists (zero_mean m), (kernel_centre (kernel_dim R)).
  eexists. split; [reflexivity|]. split.
  - rewrite Hz. apply np_sum_finite.
  - rewrite Hmu. apply deviations_sum_zero.
    rewrite Hx, size_map_map. exact Hn.
Qed.

Lemma circkernel_sum_zero_witness :
  (0 < 2 /\ 0 < 1 /\ 1 <= 2) /\
  exists k c s,
    circkernel 2 1 = Ok (k, c) /\ np_sum k = Fin s /\ s == 0.
Proof.
  assert (H : 0 < 2 /\ 0 < 1 /\ 1 <= 2) by (repeat split; lra).
  split; [exact H|].
  destruct H as [H1 [H2 H3]]. exact (circkernel_sum_zero 2 1 H1 H2 H3).
Defined.

Lemma nth_mask (kdim : Z) (test : Z -> Z -> bool) (i : nat) :
  (i < Z.to_nat kdim)%nat ->
  nth i (mask kdim test) [] = map (test (Z.of_nat i)) (indices kdim).
Proof.
  intro Hi. unfold mask.
  rewrite (nth_map_lt _ _ _ _ 0%Z) by (rewrite length_indices; exact Hi).
  rewrite nth_indices by exact Hi. reflexivity.
Qed.

Lemma nth_nth_mask (kdim : Z) (test : Z -> Z -> bool) (i j : nat) :
  (i < Z.to_nat kdim)%nat -> (j < Z.to_nat kdim)%nat ->
  nth j (nth i (mask kdim test) []) false = test (Z.of_nat i) (Z.of_nat j).
Proof.
  intros Hi Hj. rewrite nth_mask by exact Hi.
  rewrite (nth_map_lt _ _ _ _ 0%Z) by (rewrite length_indices; exact Hj).
  rewrite nth_indices by exact Hj. reflexivity.
Qed.

Lemma length_zero_mean (m : list (list bool)) :
  length (zero_mean m) = length m.
Proof. unfold zero_mean, sub_scalar. rewrite !length_map. reflexivity. Qed.

Lemma nth_zero_mean (m : list (list bool)) (i : nat) :
  (i < length m)%nat ->
  nth i (zero_mean m) []
  = map (fun b => fsub (astype_float b) (np_mean (map (map astype_float) m)))
        (nth i m []).
Proof.
  intro Hi. unfold zero_mean, sub_scalar. rewrite map_map.
  rewrite (nth_map_lt _ _ _ _ []) by exact Hi.
  rewrite map_map. reflexivity.
Qed.

Lemma cell_zero_mean (m : list (list bool)) (i j : nat) :
  (i < length m)%nat -> (j < length (nth i m []))%nat ->
  cell (zero_mean m) i j
  = fsub (astype_float (nth j (nth i m []) false))
         (np_mean (map (map astype_float) m)).
Proof.
  intros Hi Hj. unfold cell. rewrite nth_zero_mean by exact Hi.
  rewrite (nth_map_lt _ _ _ _ false) by exact Hj. reflexivity.
Qed.

Lemma rectangular_zero_mean_mask (kdim : Z) (test : Z -> Z -> bool) :
  rectangular (Z.to_nat kdim) (zero_mean (mask kdim test)).
Proof.
  unfold rectangular, zero_mean, sub_scalar. rewrite map_map.
  apply Forall_forall. intros row Hrow.
  apply in_map_iff in Hrow. destruct Hrow as [r [<- Hr]].
  rewrite !length_map. apply (mask_rows _ _ _ Hr).
Qed.

Lemma cell_kernel (kdim : Z) (test : Z -> Z -> bool) (i j : nat) :
  (i < Z.to_nat kdim)%nat -> (j < Z.to_nat kdim)%nat ->
  cell (zero_mean (mask kdim test)) i j
  = fsub (astype_float (test (Z.of_nat i) (Z.of_nat j)))
         (np_mean (map (map astype_float) (mask kdim test))).
Proof.
  intros Hi Hj. rewrite cell_zero_mean.
  - rewrite nth_nth_mask by assumption. reflexivity.
  - rewrite length_mask. exact Hi.
  - rewrite nth_mask by exact Hi. rewrite length_map, length_indices.
    exact Hj.
Qed.








(** ** Symmetries of the kernel *)

Lemma grid_ext (n m : nat) (g g' : grid) :
  length g = n -> length g' = n ->
  rectangular m g -> rectangular m g' ->
  (forall i j, (i < n)%nat -> (j < m)%nat -> cell g i j = cell g' i j) ->
  g = g'.
Proof.
  intros Hg Hg' Hr Hr' Hc.
  apply (nth_ext _ _ [] []); [congruence|].
  intros i Hi.
  assert (Hrow : length (nth i g []) = m).
  { unfold rectangular in Hr. rewrite Forall_forall in Hr.
    apply Hr, nth_In, Hi. }
  assert (Hrow' : length (nth i g' []) = m).
  { unfold rectangular in Hr'. rewrite Forall_forall in Hr'.
    apply Hr', nth_In. lia. }
  apply (nth_ext _ _ NaN NaN); [congruence|].
  intros j Hj. apply Hc; lia.
Qed.

Lemma rectangular_nth (m : nat) (g : grid) (i : nat) :
  rectangular m g -> (i < length g)%nat -> length (nth i g []) = m.
Proof.
  intros Hr Hi. unfold rectangular in Hr. rewrite Forall_forall in Hr.
  apply Hr, nth_In, Hi.
Qed.

Lemma cell_flipud (g : grid) (i j : nat) :
  (i < length g)%nat ->
  cell (np_flipud g) i j = cell g (length g - 1 - i) j.
Proof.
  intro Hi. unfold cell, np_flipud. rewrite rev_nth by exact Hi.
  replace (length g - S i)%nat with (length g - 1 - i)%nat by lia.
  reflexivity.
Qed.

Lemma cell_fliplr (m : nat) (g : grid) (i j : nat) :
  rectangular m g -> (i < length g)%nat -> (j < m)%nat ->
  cell (np_fliplr g) i j = cell g i (m - 1 - j).
Proof.
  intros Hr Hi Hj. unfold cell, np_fliplr.
  rewrite (nth_map_lt _ _ _ _ []) by exact Hi.
  pose proof (rectangular_nth m g i Hr Hi) as Hlen.
  rewrite rev_nth by lia. rewrite Hlen.
  replace (m - S j)%nat with (m - 1 - j)%nat by lia. reflexivity.
Qed.

Lemma rectangular_fliplr (m : nat) (g : grid) :
  rectangular m g -> rectangular m (np_fliplr g).
Proof.
  unfold rectangular, np_fliplr. intro H. apply Forall_map.
  revert H. apply Forall_impl. intros row Hrow.
  rewrite length_rev. exact Hrow.
Qed.

Lemma rectangular_flipud (m : nat) (g : grid) :
  rectangular m g -> rectangular m (np_flipud g).
Proof. unfold rectangular, np_flipud. apply Forall_rev. Qed.

Lemma column_rectangular (m : nat) (g : grid) (j : nat) :
  rectangular m g -> (j < m)%nat ->
  column j g = map (fun row => nth j row NaN) g.
Proof.
  intros Hr Hj. unfold column.
  induction Hr as [|row g Hrow Hr IH]; simpl; [reflexivity|].
  rewrite IH. rewrite (nth_error_nth' row NaN) by lia. reflexivity.
Qed.

Lemma ncols_rectangular (m : nat) (g : grid) :
  rectangular m g -> g <> [] -> ncols g = m.
Proof.
  intros Hr Hne. destruct g as [|row g]; [contradiction|].
  inversion Hr; subst. reflexivity.
Qed.

Lemma transpose_square (n : nat) (g : grid) :
  length g = n -> rectangular n g ->
  length (transpose g) = n /\ rectangular n (transpose g) /\
  forall i j, (i < n)%nat -> (j < n)%nat ->
    cell (transpose g) i j = cell g j i.
Proof.
  intros Hlen Hr. destruct n as [|n'].
  { destruct g; [|discriminate]. repeat split; try constructor.
    intros; lia. }
  assert (Hc : ncols g = S n').
  { apply ncols_rectangular; [exact Hr|]. destruct g; [discriminate|].
    discriminate. }
  unfold transpose. rewrite Hc. split; [|split].
  - rewrite length_map, length_seq. reflexivity.
  - unfold rectangular. apply Forall_map, Forall_forall.
    intros j Hj. apply in_seq in Hj.
    rewrite (column_rectangular (S n')) by (assumption || lia).
    rewrite length_map. exact Hlen.
  - intros i j Hi Hj. unfold cell.
    rewrite (nth_map_lt _ _ _ _ O) by (rewrite length_seq; exact Hi).
    rewrite seq_nth by exact Hi. simpl (0 + i)%nat.
    rewrite (column_rectangular (S n')) by assumption.
    rewrite (nth_map_lt _ _ _ _ []) by lia. reflexivity.
Qed.

Lemma dist2_mirror (kdim : Z) (i : nat) (y : Z) :
  (i < Z.to_nat kdim)%nat ->
  dist2 (kernel_centre kdim) (Z.of_nat (Z.to_nat kdim - 1 - i)) y
  == dist2 (kernel_centre kdim) (Z.of_nat i) y.
Proof.
  intro Hi.
  replace (Z.of_nat (Z.to_nat kdim - 1 - i)) with (kdim - 1 - Z.of_nat i)%Z
    by lia.
  unfold dist2, kernel_centre, sq.
  unfold Z.sub. rewrite !inject_Z_plus, !inject_Z_opp. field.
Qed.

Lemma dist2_swap (c : Q) (x y : Z) : dist2 c x y == dist2 c y x.
Proof. unfold dist2. ring. Qed.

Lemma in_ring_mirror (R w : Q) (kdim : Z) (i : nat) (y : Z) :
  (i < Z.to_nat kdim)%nat ->
  in_ring R w (kernel_centre kdim) (Z.of_nat (Z.to_nat kdim - 1 - i)) y
  = in_ring R w (kernel_centre kdim) (Z.of_nat i) y.
Proof.
  intro Hi. unfold in_ring.
  rewrite (Qlt_bool_compat _ (dist2 (kernel_centre kdim) (Z.of_nat i) y)
             (sq R) (sq R)) by (apply dist2_mirror, Hi || reflexivity).
  rewrite (Qlt_bool_compat (sq (R - w)) (sq (R - w)) _
             (dist2 (kernel_centre kdim) (Z.of_nat i) y))
    by (apply dist2_mirror, Hi || reflexivity).
  reflexivity.
Qed.

Lemma in_ring_swap (R w c : Q) (x y : Z) :
  in_ring R w c x y = in_ring R w c y x.
Proof.
  unfold in_ring.
  rewrite (Qlt_bool_compat _ (dist2 c y x) (sq R) (sq R))
    by (apply dist2_swap || reflexivity).
  rewrite (Qlt_bool_compat (sq (R - w)) (sq (R - w)) _ (dist2 c y x))
    by (apply dist2_swap || reflexivity).
  reflexivity.
Qed.

Section KernelSymmetry.
Variables (R w : Q).
Let K : Z := kernel_dim R.
Let n : nat := Z.to_nat K.
Let k : grid := zero_mean (mask K (in_ring R w (kernel_centre K))).

Lemma kernel_length : length k = n.
Proof. unfold k. rewrite length_zero_mean. apply length_mask. Qed.

Lemma kernel_rectangular : rectangular n k.
Proof. apply rectangular_zero_mean_mask. Qed.

Lemma kernel_cell_mirror (i j : nat) :
  (i < n)%nat -> (j < n)%nat -> cell k (n - 1 - i) j = cell k i j.
Proof.
  intros Hi Hj. unfold k. rewrite !cell_kernel by (fold n; lia).
  fold n. unfold n at 1. rewrite in_ring_mirror by exact Hi.
  reflexivity.
Qed.

Lemma kernel_cell_swap (i j : nat) :
  (i < n)%nat -> (j < n)%nat -> cell k i j = cell k j i.
Proof.
  intros Hi Hj. unfold k. rewrite !cell_kernel by assumption.
  rewrite in_ring_swap. reflexivity.
Qed.

Lemma kernel_flipud : np_flipud k = k.
Proof.
  apply (grid_ext n n).
  - unfold np_flipud. rewrite length_rev. apply kernel_length.
  - apply kernel_length.
  - apply rectangular_flipud, kernel_rectangular.
  - apply kernel_rectangular.
  - intros i j Hi Hj.
    rewrite cell_flipud by (rewrite kernel_length; exact Hi).
    rewrite kernel_length. apply kernel_cell_mirror; assumption.
Qed.

Lemma kernel_fliplr : np_fliplr k = k.
Proof.
  apply (grid_ext n n).
  - unfold np_fliplr. rewrite length_map. apply kernel_length.
  - apply kernel_length.
  - apply rectangular_fliplr, kernel_rectangular.
  - apply kernel_rectangular.
  - intros i j Hi Hj.
    rewrite (cell_fliplr n)
      by (try apply kernel_rectangular; try rewrite kernel_length; assumption).
    rewrite kernel_cell_swap by lia.
    rewrite kernel_cell_mirror by assumption.
    apply kernel_cell_swap; assumption.
Qed.

Lemma kernel_rot90 : np_rot90 k = k.
Proof.
  unfold np_rot90. rewrite kernel_fliplr.
  destruct (transpose_square n k kernel_length kernel_rectangular)
    as [Hlen [Hrect Hcell]].
  apply (grid_ext n n); try assumption.
  - apply kernel_length.
  - apply kernel_rectangular.
  - intros i j Hi Hj. rewrite Hcell by assumption.
    apply kernel_cell_swap; assumption.
Qed.
End KernelSymmetry.

(** C9. For every radius [R > 0] and ring width [0 < w <= R] the kernel
    returned by [circkernel] is unchanged, cell for cell, by a quarter
    turn of the grid and by the horizontal and the vertical mirror flip. *)
Theorem circkernel_symmetric (R w : Q) :
  0 < R -> 0 < w -> w <= R ->
  exists k c,
    circkernel R w = Ok (k, c) /\
    np_rot90 k = k /\ np_fliplr k = k /\ np_flipud k = k.
Proof.
  intros HR _ _. pose proof (kernel_dim_ge_2 R HR) as HK.
  eexists. eexists. split; [apply circkernel_ok; lia|].
  split; [apply kernel_rot90|]. split; [apply kernel_fliplr|].
  apply kernel_flipud.
Qed.

Lemma circkernel_symmetric_witness :
  (0 < 39 # 2 /\ 0 < 3 # 2 /\ 3 # 2 <= 39 # 2) /\
  exists k c,
    circkernel (39 # 2) (3 # 2) = Ok (k, c) /\
    np_rot90 k = k /\ np_fliplr k = k /\ np_flipud k = k.
Proof.
  assert (H : 0 < 39 # 2 /\ 0 < 3 # 2 /\ 3 # 2 <= 39 # 2)
    by (repeat split; lra).
  split; [exact H|]. destruct H as [H1 [H2 H3]].
  exact (circkernel_symmetric (39 # 2) (3 # 2) H1 H2 H3).
Defined.

(** ** Maxima of finite lists *)

Lemma fold_fmax_Fin (l : list Q) (a : Q) :
  exists M,
    fold_left fmax (map Fin l) (Fin a) = Fin M /\
    (M = a \/ In M l) /\ a <= M /\ forall v, In v l -> v <= M.
Proof.
  revert a. induction l as [|q l IH]; intro a.
  - exists a. simpl. repeat split; auto; try lra. intros v [].
  - cbn [map fold_left]. unfold fmax at 2. cbn [is_nan flt].
    destruct (Qlt_bool a q) eqn:E.
    + apply Qlt_bool_iff in E.
      destruct (IH q) as [M [HM [Hin [Hle Hall]]]].
      exists M. split; [exact HM|]. split; [|split].
      * right. destruct Hin as [-> | Hin]; [left; reflexivity | right; exact Hin].
      * lra.
      * intros v [<- | Hv]; [exact Hle | apply Hall, Hv].
    + apply Qlt_bool_false in E.
      destruct (IH a) as [M [HM [Hin [Hle Hall]]]].
      exists M. split; [exact HM|]. split; [|split].
      * destruct Hin as [-> | Hin]; [left; reflexivity | right; right; exact Hin].
      * exact Hle.
      * intros v [<- | Hv]; [lra | apply Hall, Hv].
Qed.

Lemma max1_Fin (l : list Q) :
  l <> [] ->
  exists M, max1 (map Fin l) = Ok (Fin M) /\ In M l /\
            forall v, In v l -> v <= M.
Proof.
  intro Hne. destruct l as [|a l]; [contradiction|].
  destruct (fold_fmax_Fin l a) as [M [HM [Hin [Hle Hall]]]].
  exists M. cbn [map max1]. rewrite HM. split; [reflexivity|]. split.
  - destruct Hin as [-> | Hin]; [left; reflexivity | right; exact Hin].
  - intros v [<- | Hv]; [exact Hle | apply Hall, Hv].
Qed.

Lemma np_max_finite (x : list (list Q)) :
  size x <> O ->
  exists M, np_max (finite x) = Ok (Fin M) /\ In M (concat x) /\
            forall v, In v (concat x) -> v <= M.
Proof.
  intro Hn. unfold np_max. rewrite concat_finite. apply max1_Fin.
  intro H. apply Hn. unfold size. rewrite H. reflexivity.
Qed.

Lemma div_scalar_finite (x : list (list Q)) (M : Q) :
  ~ M == 0 ->
  div_scalar (finite x) (Fin M) = finite (map (map (fun v => v / M)) x).
Proof.
  intro HM. unfold div_scalar, finite. rewrite !map_map.
  apply map_ext. intro row. rewrite !map_map. apply map_ext. intro v.
  unfold fdiv. rewrite Qeq_bool_false by exact HM. reflexivity.
Qed.

(** Dividing a list with a positive maximum by that maximum leaves a list
    whose maximum is one. *)
Lemma max_after_division (l : list Q) (M : Q) :
  In M l -> (forall v, In v l -> v <= M) -> 0 < M ->
  exists M', max1 (map Fin (map (fun v => v / M) l)) = Ok (Fin M') /\
             M' == 1.
Proof.
  intros Hin Hall Hpos.
  destruct (max1_Fin (map (fun v => v / M) l)) as [M' [HM' [Hin' Hall']]].
  { destruct l; [contradiction | discriminate]. }
  exists M'. split; [exact HM'|].
  apply Qle_antisym.
  - apply in_map_iff in Hin'. destruct Hin' as [v [<- Hv]].
    apply Qle_shift_div_r; [exact Hpos|]. specialize (Hall v Hv). lra.
  - assert (H1 : M / M <= M')
      by (apply Hall'; exact (in_map (fun v => v / M) l M Hin)).
    assert (H2 : M / M == 1) by (field; lra).
    lra.
Qed.

Lemma Qsum_nonpos (l : list Q) :
  (forall v, In v l -> v <= 0) -> Qsum l <= 0.
Proof.
  induction l as [|q l IH]; intro H.
  - unfold Qsum. simpl. lra.
  - rewrite Qsum_cons.
    assert (q <= 0) by (apply H; left; reflexivity).
    assert (Qsum l <= 0) by (apply IH; intros v Hv; apply H; right; exact Hv).
    lra.
Qed.

Lemma nonpos_sum_zero (l : list Q) :
  (forall v, In v l -> v <= 0) -> Qsum l == 0 ->
  forall v, In v l -> v == 0.
Proof.
  induction l as [|q l IH]; intros H Hs v Hv; [destruct Hv|].
  rewrite Qsum_cons in Hs.
  assert (Hq : q <= 0) by (apply H; left; reflexivity).
  assert (Hl : Qsum l <= 0)
    by (apply Qsum_nonpos; intros u Hu; apply H; right; exact Hu).
  destruct Hv as [<- | Hv]; [lra|].
  apply IH; [intros u Hu; apply H; right; exact Hu | lra | exact Hv].
Qed.

Lemma Forall2_map_map {A B C : Type} (P : B -> C -> Prop)
      (f : A -> B) (g : A -> C) (l : list A) :
  (forall a, P (f a) (g a)) -> Forall2 P (map f l) (map g l).
Proof.
  intro H. induction l as [|a l IH]; simpl; constructor; auto.
Qed.

(** ** Normalisation *)

Section Normalize.
Variable x : list (list Q).
Hypothesis nonempty : size x <> O.

Let n : Q := inject_Z (Z.of_nat (size x)).
Let mu : Q := Qsum (concat x) / n.
Let x1 : list (list Q) := map (map (fun v => v - mu)) x.

Lemma normalize_step1 :
  sub_scalar (finite x) (np_mean (finite x)) = finite x1.
Proof.
  rewrite np_mean_finite by exact nonempty. apply sub_scalar_finite.
Qed.

Lemma size_x1 : size x1 = size x.
Proof. apply size_map_map. Qed.

Lemma sum_x1 : Qsum (concat x1) == 0.
Proof. apply deviations_sum_zero, nonempty. Qed.

Lemma in_x1 (a : Q) : In a (concat x) -> In (a - mu) (concat x1).
Proof.
  intro H. unfold x1. rewrite concat_map_map.
  apply (in_map (fun v => v - mu)), H.
Qed.

(** The maximum of the deviations of a non-constant image is positive. *)
Lemma max_deviation_positive (a b M : Q) :
  In a (concat x) -> In b (concat x) -> ~ a == b ->
  (forall v, In v (concat x1) -> v <= M) -> 0 < M.
Proof.
  intros Ha Hb Hab Hall.
  destruct (Qlt_le_dec 0 M) as [Hpos | Hle]; [exact Hpos | exfalso].
  assert (Hz : forall v, In v (concat x1) -> v == 0).
  { apply nonpos_sum_zero; [|apply sum_x1].
    intros v Hv. specialize (Hall v Hv). lra. }
  pose proof (Hz _ (in_x1 a Ha)) as H1.
  pose proof (Hz _ (in_x1 b Hb)) as H2.
  apply Hab. lra.
Qed.

Lemma normalize_finite (M : Q) :
  np_max (finite x1) = Ok (Fin M) -> ~ M == 0 ->
  normalize (finite x) = Ok (finite (map (map (fun v => v / M)) x1)).
Proof.
  intros HM Hnz. unfold normalize. cbv zeta.
  rewrite normalize_step1, HM. cbn [bind].
  rewrite div_scalar_finite by exact Hnz. reflexivity.
Qed.
End Normalize.

Lemma in_concat_size {A : Type} (g : list (list A)) (a : A) :
  In a (concat g) -> size g <> O.
Proof.
  unfold size. intros H Hz. destruct (concat g); [destruct H | discriminate].
Qed.



Lemma Qsum_const (l : list Q) (v : Q) :
  (forall a, In a l -> a == v) ->
  Qsum l == inject_Z (Z.of_nat (length l)) * v.
Proof.
  induction l as [|q l IH]; intro H.
  - unfold Qsum. simpl. ring.
  - assert (Hq : q == v) by (apply H; left; reflexivity).
    rewrite Qsum_cons, IH by (intros a Ha; apply H; right; exact Ha).
    cbn [length]. rewrite Hq. rewrite Nat2Z.inj_succ, <- Z.add_1_r, inject_Z_plus.
    change (inject_Z 1) with 1. ring.
Qed.




(** ** The correlation map *)

Lemma all_fin_list (l : list fval) :
  Forall (fun v => exists q, v = Fin q) l -> exists qs, l = map Fin qs.
Proof.
  induction 1 as [|v l [q ->] _ [qs ->]].
  - exists []. reflexivity.
  - exists (q :: qs). reflexivity.
Qed.

Lemma all_fin_grid (g : grid) :
  Forall (Forall (fun v => exists q, v = Fin q)) g -> exists c, g = finite c.
Proof.
  induction 1 as [|row g Hrow _ [c ->]].
  - exists []. reflexivity.
  - destruct (all_fin_list row Hrow) as [qs ->].
    exists (qs :: c). reflexivity.
Qed.

Lemma pixel_finite (im : list (list Q)) (x y : Z) :
  exists q, pixel (finite im) x y = Fin q.
Proof.
  unfold pixel, finite.
  destruct ((0 <=? x)%Z && (0 <=? y)%Z); [|eexists; reflexivity].
  rewrite nth_error_map.
  destruct (nth_error im (Z.to_nat x)) as [row|]; cbn [option_map];
    [|eexists; reflexivity].
  change (Fin 0) with (Fin 0%Q). rewrite map_nth. eexists. reflexivity.
Qed.

Lemma in_indexed {A : Type} (l : list A) (ia : Z * A) :
  In ia (indexed l) -> In (snd ia) l.
Proof.
  destruct ia as [i a]. unfold indexed. intro H.
  apply in_combine_r in H. exact H.
Qed.

Lemma convolve_at_finite (im kn : list (list Q)) (x y : Z) :
  exists q, convolve_at (finite im) (finite kn) x y = Fin q.
Proof.
  unfold convolve_at. cbv zeta.
  match goal with |- exists q, sum1 ?l = Fin q =>
    destruct (all_fin_list l) as [qs Hqs]
  end.
  - apply Forall_forall. intros v Hv.
    apply in_concat in Hv. destruct Hv as [r [Hr Hv]].
    apply in_map_iff in Hr. destruct Hr as [irow [<- Hirow]].
    apply in_map_iff in Hv. destruct Hv as [jk [<- Hjk]].
    apply in_indexed in Hirow. apply in_indexed in Hjk.
    unfold finite in Hirow. apply in_map_iff in Hirow.
    destruct Hirow as [r [Hr _]]. rewrite <- Hr in Hjk.
    apply in_map_iff in Hjk. destruct Hjk as [q [<- _]].
    match goal with |- context [pixel (finite im) ?a ?b] =>
      destruct (pixel_finite im a b) as [q' ->]
    end.
    eexists. reflexivity.
  - rewrite Hqs, sum1_Fin. eexists. reflexivity.
Qed.

Lemma length_indexed {A : Type} (l : list A) : length (indexed l) = length l.
Proof.
  unfold indexed. rewrite length_combine, length_arange.
  replace (Z.to_nat (Z.of_nat (length l) - 0)) with (length l) by lia.
  apply Nat.min_id.
Qed.

Lemma Forall2_map_combine {A B C : Type} (P : C -> B -> Prop)
      (f : A * B -> C) (l : list B) :
  (forall i a, P (f (i, a)) a) ->
  forall (ks : list A), length ks = length l ->
    Forall2 P (map f (combine ks l)) l.
Proof.
  intro H. induction l as [|a l IH]; intros [|k ks] Hlen;
    try discriminate; simpl; constructor; auto.
Qed.

Lemma Forall2_map_indexed {A C : Type} (P : C -> A -> Prop)
      (f : Z * A -> C) (l : list A) :
  (forall i a, P (f (i, a)) a) -> Forall2 P (map f (indexed l)) l.
Proof.
  intro H. unfold indexed. apply Forall2_map_combine; [exact H|].
  rewrite length_arange. lia.
Qed.

Lemma convolve_shape (image kernel : grid) :
  Forall2 (fun r r' => length r = length r') (convolve image kernel) image.
Proof.
  unfold convolve. apply Forall2_map_indexed. intros i row. cbn [snd].
  rewrite length_map. apply length_indexed.
Qed.

Lemma Forall2_size {A B : Type} (g : list (list A)) (g' : list (list B)) :
  Forall2 (fun r r' => length r = length r') g g' -> size g = size g'.
Proof.
  unfold size. induction 1 as [|r r' g g' Hr _ IH]; simpl; [reflexivity|].
  rewrite !length_app. congruence.
Qed.

Lemma convolve_finite (im kn : list (list Q)) :
  exists c, convolve (finite im) (finite kn) = finite c.
Proof.
  apply all_fin_grid. unfold convolve.
  apply Forall_map, Forall_forall. intros xrow _.
  apply Forall_map, Forall_forall. intros yv _.
  apply convolve_at_finite.
Qed.

Lemma div_scalar_shape (g : grid) (s : fval) :
  Forall2 (fun r r' => length r = length r') (div_scalar g s) g.
Proof.
  unfold div_scalar. induction g as [|r g IH]; simpl; constructor.
  - apply length_map.
  - exact IH.
Qed.

Lemma Forall2_shape_trans {A B C : Type}
      (g1 : list (list A)) (g2 : list (list B)) (g3 : list (list C)) :
  Forall2 (fun r r' => length r = length r') g1 g2 ->
  Forall2 (fun r r' => length r = length r') g2 g3 ->
  Forall2 (fun r r' => length r = length r') g1 g3.
Proof.
  intro H. revert g3. induction H as [|r1 r2 g1 g2 Hr _ IH]; intros g3 H3.
  - inversion H3. constructor.
  - inversion H3; subst. constructor; [congruence | apply IH; assumption].
Qed.

Lemma finite_shape (x : list (list Q)) :
  Forall2 (fun r r' => length r = length r') (finite x) x.
Proof.
  unfold finite. induction x as [|r x IH]; simpl; constructor.
  - apply length_map.
  - exact IH.
Qed.

(** C4 (refuted as stated).  With the ring kernel for [R = 2], [w = 1] the
    correlation map of the spots image has the entry -113/62, so its
    largest absolute value is 113/62 and not 1. *)
Lemma correlate_max_abs_not_one :
  exists k c conv r,
    circkernel 2 1 = Ok (k, c) /\ correlate spots_image k = Ok conv /\
    max_abs conv = Ok (Fin r) /\ r == 113 # 62 /\ ~ r == 1.
Proof.
  eexists. eexists. eexists. eexists.
  split; [vm_compute; reflexivity|].
  split; [vm_compute; reflexivity|].
  split; [vm_compute; reflexivity|].
  split; [reflexivity|].
  intro H. vm_compute in H. discriminate H.
Qed.

(** C4 (amended).  For every non-empty image and every kernel the
    correlation map is returned with the dimensions of the image, and
    when the convolution has a positive maximum the largest value of the
    map equals 1.  Nothing bounds the entries from below: the largest
    absolute value can exceed 1. *)
Theorem correlate_shape_and_max (im kn : list (list Q)) :
  size im <> O ->
  exists conv,
    correlate (finite im) (finite kn) = Ok conv /\
    length conv = length im /\
    Forall2 (fun r r' => length r = length r') conv im /\
    (forall m,
        np_max (convolve (finite im) (finite kn)) = Ok (Fin m) -> 0 < m ->
        exists m', np_max conv = Ok (Fin m') /\ m' == 1).
Proof.
  intro Hn.
  destruct (convolve_finite im kn) as [c Hc].
  pose proof (convolve_shape (finite im) (finite kn)) as Hshape.
  pose proof (finite_shape im) as Hfin.
  pose proof (Forall2_shape_trans _ _ _ Hshape Hfin) as Hshape'.
  assert (Hnc : size c <> O).
  { rewrite <- size_finite, <- Hc, (Forall2_size _ _ Hshape'). exact Hn. }
  destruct (np_max_finite c Hnc) as [M [HM [HinM HallM]]].
  exists (div_scalar (finite c) (Fin M)).
  assert (Hdiv : Forall2 (fun r r' => length r = length r')
                         (div_scalar (finite c) (Fin M)) im).
  { apply (Forall2_shape_trans _ (finite c)); [apply div_scalar_shape|].
    rewrite <- Hc. exact Hshape'. }
  split; [|split; [|split]].
  - unfold correlate. cbv zeta. rewrite Hc, HM. reflexivity.
  - apply (Forall2_length Hdiv).
  - exact Hdiv.
  - intros m Hm Hpos. rewrite Hc, HM in Hm. injection Hm as <-.
    rewrite div_scalar_finite by lra.
    unfold np_max. rewrite concat_finite, concat_map_map.
    apply max_after_division; assumption.
Qed.

Lemma correlate_shape_and_max_witness :
  exists conv,
    correlate (finite [[1; 2]; [3; 4]]) (finite [[1]]) = Ok conv /\
    length conv = 2%nat /\
    Forall2 (fun r r' => length r = length r') conv [[1; 2]; [3; 4]] /\
    exists m', np_max conv = Ok (Fin m') /\ m' == 1.
Proof.
  destruct (correlate_shape_and_max [[1; 2]; [3; 4]] [[1]])
    as [conv [H1 [H2 [H3 H4]]]]; [discriminate|].
  exists conv. split; [exact H1|]. split; [exact H2|]. split; [exact H3|].
  apply (H4 4); [vm_compute; reflexivity | reflexivity].
Defined.

(** ** Peak extraction *)

Lemma fle_threshold_mono (t1 t2 : Q) (v : fval) :
  t1 <= t2 -> fle (Fin t2) v = true -> fle (Fin t1) v = true.
Proof.
  intros Ht. unfold fle. destruct v as [q| | |]; cbn [flt feqb];
    try (intro H; exact H).
  intro H. apply orb_true_iff in H.
  assert (Hq : t2 <= q).
  { destruct H as [H | H].
    - apply Qlt_bool_iff in H. lra.
    - apply Qeq_bool_iff in H. lra. }
  apply orb_true_iff.
  destruct (Qlt_le_dec t1 q) as [Hlt | Hle].
  - left. apply Qlt_bool_iff. exact Hlt.
  - right. apply Qeq_bool_iff. lra.
Qed.

Lemma filter_length_le {A : Type} (f g : A -> bool) (l : list A) :
  (forall a, f a = true -> g a = true) ->
  (length (filter f l) <= length (filter g l))%nat.
Proof.
  intro H. induction l as [|a l IH]; simpl; [lia|].
  destruct (f a) eqn:Ef.
  - rewrite (H a Ef). simpl. lia.
  - destruct (g a); simpl; lia.
Qed.

Lemma peak_local_max_antitone (conv : grid) (d : Z) (t1 t2 : Q) :
  t1 <= t2 ->
  (length (peak_local_max conv d t2) <= length (peak_local_max conv d t1))%nat.
Proof.
  intro Ht. unfold peak_local_max. apply filter_length_le.
  intros a Ha. apply andb_true_iff in Ha. destruct Ha as [Hmax Hthr].
  apply andb_true_iff. split; [exact Hmax|].
  apply (fle_threshold_mono t1 t2); assumption.
Qed.

(** C7. For a fixed image and kernel, raising the threshold never raises
    the number of peaks: with [t1 <= t2], either [convcirc] fails in the
    same way for both thresholds, or it returns for both and the list for
    [t2] is no longer than the list for [t1]. *)
Theorem peak_count_antitone (image : grid) (R w t1 t2 : Q) :
  t1 <= t2 ->
  match convcirc_peaks image R w t1, convcirc_peaks image R w t2 with
  | Ok p1, Ok p2 => (length p2 <= length p1)%nat
  | Raise e1, Raise e2 => e1 = e2
  | _, _ => False
  end.
Proof.
  intro Ht. unfold convcirc_peaks.
  destruct (circkernel R w) as [[ckern c] | e]; cbn [bind]; [|reflexivity].
  destruct (correlate image ckern) as [conv | e]; cbn [bind]; [|reflexivity].
  apply peak_local_max_antitone, Ht.
Qed.

Lemma peak_count_antitone_witness :
  55 # 100 <= 11 # 10 /\
  convcirc_peaks spots_image 2 1 (55 # 100) = Ok [(4, 4)]%Z /\
  convcirc_peaks spots_image 2 1 (11 # 10) = Ok [] /\
  match convcirc_peaks spots_image 2 1 (55 # 100),
        convcirc_peaks spots_image 2 1 (11 # 10) with
  | Ok p1, Ok p2 => (length p2 <= length p1)%nat
  | Raise e1, Raise e2 => e1 = e2
  | _, _ => False
  end.
Proof.
  assert (H : 55 # 100 <= 11 # 10) by (unfold Qle; simpl; lia).
  split; [exact H|].
  split; [vm_compute; reflexivity|].
  split; [vm_compute; reflexivity|].
  exact (peak_count_antitone spots_image 2 1 (55 # 100) (11 # 10) H).
Defined.

(** ** Slices and the refinement window *)

Lemma firstn_skipn_nth {A : Type} (l : list A) (s n : nat) (d : A) :
  (s + n <= length l)%nat ->
  firstn n (skipn s l) = map (fun i => nth (s + i) l d) (seq 0 n).
Proof.
  revert s l. induction n as [|n IH]; intros s l Hlen; [reflexivity|].
  destruct (skipn s l) as [|a t] eqn:E.
  { pose proof (length_skipn s l) as Hs. rewrite E in Hs. simpl in Hs. lia. }
  cbn [firstn seq map]. f_equal.
  - rewrite Nat.add_0_r.
    rewrite <- (firstn_skipn s l) at 1. rewrite E.
    rewrite app_nth2 by (rewrite length_firstn; lia).
    rewrite length_firstn.
    replace (s - Nat.min s (length l))%nat with O by lia. reflexivity.
  - assert (Ht : t = skipn (S s) l).
    { replace (S s) with (1 + s)%nat by lia.
      rewrite <- skipn_skipn, E. reflexivity. }
    rewrite Ht, (IH (S s) l) by lia.
    rewrite <- seq_shift, map_map. apply map_ext. intro i.
    f_equal. lia.
Qed.

Lemma length_pyslice {A : Type} (start stop : Z) (l : list A) :
  length (pyslice start stop l)
  = Nat.min (Z.to_nat (slice_bound (Z.of_nat (length l)) stop
                       - slice_bound (Z.of_nat (length l)) start))
            (length l - Z.to_nat (slice_bound (Z.of_nat (length l)) start)).
Proof.
  unfold pyslice. cbv zeta. rewrite length_firstn, length_skipn. reflexivity.
Qed.

(** The window [l[t-p : t+p+1]] is short when [t] is within [p] of an end. *)
Lemma pyslice_near_border {A : Type} (l : list A) (t : Z) :
  (0 <= t < Z.of_nat (length l))%Z ->
  (t < p \/ Z.of_nat (length l) <= t + p)%Z ->
  (length (pyslice (t - p) (t + p + 1) l) < 5)%nat.
Proof.
  intros Ht Hb. rewrite length_pyslice. unfold slice_bound, p in *.
  destruct (t - 2 <? 0)%Z eqn:E1; destruct (t + 2 + 1 <? 0)%Z eqn:E2;
    try apply Z.ltb_lt in E1; try apply Z.ltb_ge in E1;
    try apply Z.ltb_lt in E2; try apply Z.ltb_ge in E2; lia.
Qed.

(** The window is whole when [t] is at least [p] away from both ends. *)
Lemma pyslice_inside {A : Type} (l : list A) (t : Z) (d : A) :
  (p <= t)%Z -> (t + p < Z.of_nat (length l))%Z ->
  pyslice (t - p) (t + p + 1) l
  = map (fun k => nth (Z.to_nat (t + k)) l d) prange.
Proof.
  intros H1 H2. unfold pyslice, slice_bound, p in *. cbv zeta.
  destruct (t - 2 <? 0)%Z eqn:E1; [apply Z.ltb_lt in E1; lia|].
  destruct (t + 2 + 1 <? 0)%Z eqn:E2; [apply Z.ltb_lt in E2; lia|].
  rewrite (firstn_skipn_nth _ _ _ d) by lia.
  replace (Z.to_nat (Z.min (t + 2 + 1) (Z.of_nat (length l))
                     - Z.min (t - 2) (Z.of_nat (length l)))) with 5%nat by lia.
  change prange with [-2; -1; 0; 1; 2]%Z. cbn [seq map].
  replace (Z.min (t - 2) (Z.of_nat (length l))) with (t - 2)%Z by lia.
  repeat f_equal; lia.
Qed.

Lemma pyindex_ok (n : nat) (i : Z) :
  (0 <= i < Z.of_nat n)%Z -> pyindex n i = Ok (Z.to_nat i).
Proof.
  intro H. unfold pyindex.
  destruct (i <? 0)%Z eqn:E; [apply Z.ltb_lt in E; lia|].
  replace ((0 <=? i)%Z && (i <? Z.of_nat n)%Z) with true; [reflexivity|].
  symmetry. apply andb_true_iff. split; [apply Z.leb_le | apply Z.ltb_lt]; lia.
Qed.

Lemma length_prange : length prange = 5%nat.
Proof. reflexivity. Qed.

Lemma centroid_short (t : Z) (window : list fval) :
  length window <> 5%nat -> centroid t window = Raise ValueError.
Proof.
  intro H. unfold centroid, np_dot. rewrite length_map, length_prange.
  destruct (Nat.eqb 5 (length window)) eqn:E; [|reflexivity].
  apply Nat.eqb_eq in E. congruence.
Qed.

Lemma centroid_whole (t : Z) (window : list fval) :
  length window = 5%nat ->
  centroid t window
  = Ok (fdiv (sum1 (dot_terms (map (Z.add t) prange) window)) (sum1 window)).
Proof.
  intro H. unfold centroid, np_dot. rewrite length_map, length_prange, H.
  reflexivity.
Qed.

Lemma value_at_cell (g : grid) (x y : Z) :
  (Z.to_nat x < length g)%nat ->
  value_at g (x, y) = cell g (Z.to_nat x) (Z.to_nat y).
Proof.
  intro H. unfold value_at, cell. cbn [fst snd].
  rewrite (nth_error_nth' g []) by exact H. reflexivity.
Qed.

Section Window.
Variables (conv : grid) (H W : nat) (x0 y0 : Z).
Hypothesis rows : length conv = H.
Hypothesis cols : rectangular W conv.
Hypothesis x_in : (0 <= x0 < Z.of_nat H)%Z.
Hypothesis y_in : (0 <= y0 < Z.of_nat W)%Z.

Lemma ncols_conv : ncols conv = W.
Proof.
  apply ncols_rectangular; [exact cols|].
  intro E. rewrite E in rows. simpl in rows. lia.
Qed.

Lemma col_slice_ok (start stop : Z) :
  col_slice conv start stop y0
  = Ok (map (fun row => nth (Z.to_nat y0) row NaN) (pyslice start stop conv)).
Proof.
  unfold col_slice. rewrite ncols_conv, pyindex_ok by exact y_in.
  reflexivity.
Qed.

Lemma row_slice_ok (start stop : Z) :
  row_slice conv x0 start stop
  = Ok (pyslice start stop (nth (Z.to_nat x0) conv [])).
Proof.
  unfold row_slice, nrows. rewrite rows, pyindex_ok by exact x_in.
  reflexivity.
Qed.

Lemma length_row : length (nth (Z.to_nat x0) conv []) = W.
Proof. apply rectangular_nth; [exact cols | lia]. Qed.

Lemma col_window :
  (p <= x0)%Z -> (x0 + p < Z.of_nat H)%Z ->
  col_slice conv (x0 - p) (x0 + p + 1) y0
  = Ok (map (fun k => value_at conv (x0 + k, y0)%Z) prange).
Proof.
  intros H1 H2. rewrite col_slice_ok.
  rewrite (pyslice_inside conv x0 []) by (rewrite ?rows; assumption).
  rewrite map_map. f_equal. apply map_ext_in. intros k Hk.
  assert (Hk' : (-2 <= k <= 2)%Z).
  { change prange with [-2; -1; 0; 1; 2]%Z in Hk. simpl in Hk.
    repeat (destruct Hk as [<- | Hk]; [lia|]). destruct Hk. }
  unfold p in *. rewrite value_at_cell by lia. reflexivity.
Qed.

Lemma row_window :
  (p <= y0)%Z -> (y0 + p < Z.of_nat W)%Z ->
  row_slice conv x0 (y0 - p) (y0 + p + 1)
  = Ok (map (fun k => value_at conv (x0, y0 + k)%Z) prange).
Proof.
  intros H1 H2. rewrite row_slice_ok.
  rewrite (pyslice_inside _ y0 NaN) by (rewrite ?length_row; assumption).
  f_equal. apply map_ext. intro k.
  rewrite value_at_cell by lia. reflexivity.
Qed.

(** A peak within [p] pixels of a border: one of the two windows is
    short and [np.dot] refuses it. *)
Lemma refine_peak_short :
  (x0 < p \/ Z.of_nat H <= x0 + p \/ y0 < p \/ Z.of_nat W <= y0 + p)%Z ->
  refine_peak conv (x0, y0) = Raise ValueError.
Proof.
  intro Hb. unfold refine_peak. cbn [fst snd].
  rewrite col_slice_ok. cbn [bind].
  destruct (Z_lt_dec x0 p) as [Hx | Hx];
    [|destruct (Z_le_dec (Z.of_nat H) (x0 + p)) as [Hx' | Hx']].
  - rewrite centroid_short; [reflexivity|]. rewrite length_map.
    pose proof (pyslice_near_border conv x0) as Hs.
    rewrite rows in Hs. specialize (Hs x_in (or_introl Hx)). lia.
  - rewrite centroid_short; [reflexivity|]. rewrite length_map.
    pose proof (pyslice_near_border conv x0) as Hs.
    rewrite rows in Hs. specialize (Hs x_in (or_intror Hx')). lia.
  - rewrite centroid_whole.
    2:{ rewrite length_map, (pyslice_inside conv x0 [])
          by (rewrite ?rows; lia).
        rewrite length_map. reflexivity. }
    cbn [bind]. rewrite row_slice_ok. cbn [bind].
    rewrite centroid_short; [reflexivity|].
    pose proof (pyslice_near_border (nth (Z.to_nat x0) conv []) y0) as Hs.
    rewrite length_row in Hs.
    assert (Hy : (y0 < p \/ Z.of_nat W <= y0 + p)%Z) by lia.
    specialize (Hs y_in Hy). lia.
Qed.
End Window.






(** ** Bound on the refined coordinate *)

Lemma centroid_bounded (t : Z) (c1 c2 c3 c4 c5 : Q) :
  0 <= c1 -> 0 <= c2 -> 0 < c3 -> 0 <= c4 -> 0 <= c5 ->
  exists f,
    centroid t [Fin c1; Fin c2; Fin c3; Fin c4; Fin c5] = Ok (Fin f) /\
    Qabs (f - inject_Z t) <= inject_Z p.
Proof.
  intros H1 H2 H3 H4 H5.
  rewrite centroid_whole by reflexivity.
  change prange with [-2; -1; 0; 1; 2]%Z.
  unfold sum1, dot_terms.
  cbn [map combine fold_left fadd fmul fst snd].
  set (den := 0 + c1 + c2 + c3 + c4 + c5).
  assert (Hden : 0 < den) by (unfold den; lra).
  unfold fdiv. rewrite Qeq_bool_false by lra.
  eexists. split; [reflexivity|].
  set (num := 0 + _ + _ + _ + _ + _).
  assert (Hnum : num == inject_Z t * den
                        + (- (2) * c1 - c2 + c4 + 2 * c5)).
  { unfold num, den. rewrite !inject_Z_plus.
    change (inject_Z (-2)) with (- (2)). change (inject_Z (-1)) with (- (1)).
    change (inject_Z 0) with 0. change (inject_Z 1) with 1.
    change (inject_Z 2) with 2. ring. }
  assert (Hq : num / den - inject_Z t
               == (- (2) * c1 - c2 + c4 + 2 * c5) / den).
  { rewrite Hnum. field. lra. }
  rewrite Hq. change (inject_Z p) with 2.
  apply Qabs_Qle_condition. split.
  - apply Qle_shift_div_l; [exact Hden|]. unfold den. lra.
  - apply Qle_shift_div_r; [exact Hden|]. unfold den. lra.
Qed.

(** C2 (refuted as stated).  On the spots image, with [R = 2], [w = 1] and
    threshold 0.55, the only peak is (4,4); the column window holds the
    negative value -113/62 next to the peak, the weights add up to 3/31,
    and the refined row is -53/3, more than 21 pixels from the peak. *)
Lemma refinement_leaves_window :
  convcirc_peaks spots_image 2 1 (55 # 100) = Ok [(4, 4)%Z] /\
  exists fx fy,
    convcirc spots_image 2 1 (55 # 100) = Ok [(Fin fx, Fin fy)] /\
    fx == - (53 # 3) /\
    ~ Qabs (fx - inject_Z 4) <= inject_Z p.
Proof.
  split; [vm_compute; reflexivity|].
  eexists. eexists. split; [vm_compute; reflexivity|].
  split; [reflexivity|].
  apply Qlt_not_le. vm_compute. reflexivity.
Qed.

(** C2 (amended).  For a peak at least [p = 2] pixels away from every
    border, whose two windows hold only non-negative finite values and
    whose own value is positive, the refinement returns a finite
    coordinate on each axis, and it differs from the integer peak by at
    most [p].  Nothing bounds the result when a window holds negative
    values. *)
Theorem refine_peak_bounded (conv : grid) (H W : nat) (x0 y0 : Z) :
  length conv = H -> rectangular W conv ->
  (p <= x0)%Z -> (x0 + p < Z.of_nat H)%Z ->
  (p <= y0)%Z -> (y0 + p < Z.of_nat W)%Z ->
  (forall k, (- p <= k <= p)%Z ->
     exists v, value_at conv (x0 + k, y0)%Z = Fin v /\ 0 <= v) ->
  (forall k, (- p <= k <= p)%Z ->
     exists v, value_at conv (x0, y0 + k)%Z = Fin v /\ 0 <= v) ->
  (exists v, value_at conv (x0, y0) = Fin v /\ 0 < v) ->
  exists fx fy,
    refine_peak conv (x0, y0) = Ok (Fin fx, Fin fy) /\
    Qabs (fx - inject_Z x0) <= inject_Z p /\
    Qabs (fy - inject_Z y0) <= inject_Z p.
Proof.
  intros Hr Hc Hx1 Hx2 Hy1 Hy2 Hcol Hrow [v0 [Hv0 Hpos]].
  assert (Hx : (0 <= x0 < Z.of_nat H)%Z) by (unfold p in *; lia).
  assert (Hy : (0 <= y0 < Z.of_nat W)%Z) by (unfold p in *; lia).
  unfold refine_peak. cbn [fst snd].
  rewrite (col_window conv H W x0 y0 Hr Hc Hx Hy Hx1 Hx2).
  rewrite (row_window conv H W x0 y0 Hr Hc Hx Hy1 Hy2).
  change prange with [-2; -1; 0; 1; 2]%Z. cbn [map bind].
  rewrite !Z.add_0_r, Hv0.
  destruct (Hcol (-2)%Z) as [a1 [-> Ha1]]; [unfold p; lia|].
  destruct (Hcol (-1)%Z) as [a2 [-> Ha2]]; [unfold p; lia|].
  destruct (Hcol 1%Z) as [a4 [-> Ha4]]; [unfold p; lia|].
  destruct (Hcol 2%Z) as [a5 [-> Ha5]]; [unfold p; lia|].
  destruct (Hrow (-2)%Z) as [b1 [-> Hb1]]; [unfold p; lia|].
  destruct (Hrow (-1)%Z) as [b2 [-> Hb2]]; [unfold p; lia|].
  destruct (Hrow 1%Z) as [b4 [-> Hb4]]; [unfold p; lia|].
  destruct (Hrow 2%Z) as [b5 [-> Hb5]]; [unfold p; lia|].
  destruct (centroid_bounded x0 a1 a2 v0 a4 a5 Ha1 Ha2 Hpos Ha4 Ha5)
    as [fx [-> Hfx]].
  destruct (centroid_bounded y0 b1 b2 v0 b4 b5 Hb1 Hb2 Hpos Hb4 Hb5)
    as [fy [-> Hfy]].
  cbn [bind]. exists fx, fy. split; [reflexivity|]. split; assumption.
Qed.

Lemma refine_peak_bounded_witness :
  exists fx fy,
    refine_peak bump5 (2, 2)%Z = Ok (Fin fx, Fin fy) /\
    Qabs (fx - inject_Z 2) <= inject_Z p /\
    Qabs (fy - inject_Z 2) <= inject_Z p.
Proof.
  apply (refine_peak_bounded bump5 5 5 2 2).
  - reflexivity.
  - repeat constructor.
  - unfold p. lia.
  - unfold p. simpl. lia.
  - unfold p. lia.
  - unfold p. simpl. lia.
  - intros k Hk. unfold p in Hk.
    assert (Hcases : k = (-2)%Z \/ k = (-1)%Z \/ k = 0%Z \/ k = 1%Z \/ k = 2%Z)
      by lia.
    destruct Hcases as [-> | [-> | [-> | [-> | ->]]]];
      eexists; (split; [reflexivity | discriminate]).
  - intros k Hk. unfold p in Hk.
    assert (Hcases : k = (-2)%Z \/ k = (-1)%Z \/ k = 0%Z \/ k = 1%Z \/ k = 2%Z)
      by lia.
    destruct Hcases as [-> | [-> | [-> | [-> | ->]]]];
      eexists; (split; [reflexivity | discriminate]).
  - eexists. split; [reflexivity | reflexivity].
Defined.

(* ================================================================== *)
(** * Further properties of the kernel builders *)

Lemma disckernel_ok (R : Q) :
  (0 <= kernel_dim R)%Z ->
  disckernel R
  = Ok (zero_mean (mask (kernel_dim R)
                        (in_disc R (kernel_centre (kernel_dim R)))),
        kernel_centre (kernel_dim R)).
Proof.
  intro H. unfold disckernel.
  destruct (kernel_dim R <? 0)%Z eqn:E; [|reflexivity].
  apply Z.ltb_lt in E. lia.
Qed.

Lemma zero_mean_sum_zero (m : list (list bool)) :
  size m <> O -> exists s, np_sum (zero_mean m) = Fin s /\ s == 0.
Proof.
  intro Hn. destruct (zero_mean_finite m Hn) as [x [mu [Hz [Hx Hmu]]]].
  eexists. split.
  - rewrite Hz. apply np_sum_finite.
  - rewrite Hmu. apply deviations_sum_zero.
    rewrite Hx, size_map_map. exact Hn.
Qed.

(** X1. For every radius [R > 0], [disckernel] returns a kernel whose
    entries add up to exactly zero. *)
Theorem disckernel_sum_zero (R : Q) :
  0 < R ->
  exists k c s, disckernel R = Ok (k, c) /\ np_sum k = Fin s /\ s == 0.
Proof.
  intro HR. pose proof (kernel_dim_ge_2 R HR) as HK.
  rewrite disckernel_ok by lia.
  set (m := mask _ _).
  destruct (zero_mean_sum_zero m) as [s [Hs Hz]].
  { unfold m. rewrite size_mask. nia. }
  exists (zero_mean m), (kernel_centre (kernel_dim R)), s.
  split; [reflexivity|]. split; assumption.
Qed.

Lemma disckernel_sum_zero_witness :
  0 < 19 /\
  exists k c s, disckernel 19 = Ok (k, c) /\ np_sum k = Fin s /\ s == 0.
Proof.
  assert (H : 0 < 19) by reflexivity.
  split; [exact H|]. exact (disckernel_sum_zero 19 H).
Defined.

(** ** Symmetric membership tests give symmetric kernels *)

Section MaskSymmetry.
Variables (kdim : Z) (test : Z -> Z -> bool).
Hypothesis test_mirror :
  forall (i : nat) (y : Z), (i < Z.to_nat kdim)%nat ->
    test (Z.of_nat (Z.to_nat kdim - 1 - i)) y = test (Z.of_nat i) y.
Hypothesis test_swap : forall x y, test x y = test y x.

Lemma mask_length : length (zero_mean (mask kdim test)) = Z.to_nat kdim.
Proof. rewrite length_zero_mean. apply length_mask. Qed.

Lemma mask_cell_mirror (i j : nat) :
  (i < Z.to_nat kdim)%nat -> (j < Z.to_nat kdim)%nat ->
  cell (zero_mean (mask kdim test)) (Z.to_nat kdim - 1 - i) j
  = cell (zero_mean (mask kdim test)) i j.
Proof.
  intros Hi Hj. rewrite !cell_kernel by lia.
  rewrite test_mirror by exact Hi. reflexivity.
Qed.

Lemma mask_cell_swap (i j : nat) :
  (i < Z.to_nat kdim)%nat -> (j < Z.to_nat kdim)%nat ->
  cell (zero_mean (mask kdim test)) i j
  = cell (zero_mean (mask kdim test)) j i.
Proof.
  intros Hi Hj. rewrite !cell_kernel by assumption.
  rewrite test_swap. reflexivity.
Qed.

Lemma mask_flipud :
  np_flipud (zero_mean (mask kdim test)) = zero_mean (mask kdim test).
Proof.
  apply (grid_ext (Z.to_nat kdim) (Z.to_nat kdim)).
  - unfold np_flipud. rewrite length_rev. apply mask_length.
  - apply mask_length.
  - apply rectangular_flipud, rectangular_zero_mean_mask.
  - apply rectangular_zero_mean_mask.
  - intros i j Hi Hj.
    rewrite cell_flipud by (rewrite mask_length; exact Hi).
    rewrite mask_length. apply mask_cell_mirror; assumption.
Qed.

Lemma mask_fliplr :
  np_fliplr (zero_mean (mask kdim test)) = zero_mean (mask kdim test).
Proof.
  apply (grid_ext (Z.to_nat kdim) (Z.to_nat kdim)).
  - unfold np_fliplr. rewrite length_map. apply mask_length.
  - apply mask_length.
  - apply rectangular_fliplr, rectangular_zero_mean_mask.
  - apply rectangular_zero_mean_mask.
  - intros i j Hi Hj.
    rewrite (cell_fliplr (Z.to_nat kdim))
      by (try apply rectangular_zero_mean_mask;
          try rewrite mask_length; assumption).
    rewrite mask_cell_swap by lia.
    rewrite mask_cell_mirror by assumption.
    apply mask_cell_swap; assumption.
Qed.

Lemma mask_rot90 :
  np_rot90 (zero_mean (mask kdim test)) = zero_mean (mask kdim test).
Proof.
  unfold np_rot90. rewrite mask_fliplr.
  destruct (transpose_square (Z.to_nat kdim) _ mask_length
              (rectangular_zero_mean_mask kdim test))
    as [Hlen [Hrect Hcell]].
  apply (grid_ext (Z.to_nat kdim) (Z.to_nat kdim)); try assumption.
  - apply mask_length.
  - apply rectangular_zero_mean_mask.
  - intros i j Hi Hj. rewrite Hcell by assumption.
    apply mask_cell_swap; assumption.
Qed.
End MaskSymmetry.

Lemma in_disc_mirror (R : Q) (kdim : Z) (i : nat) (y : Z) :
  (i < Z.to_nat kdim)%nat ->
  in_disc R (kernel_centre kdim) (Z.of_nat (Z.to_nat kdim - 1 - i)) y
  = in_disc R (kernel_centre kdim) (Z.of_nat i) y.
Proof.
  intro Hi. unfold in_disc.
  apply Qlt_bool_compat; [apply dist2_mirror, Hi | reflexivity].
Qed.

Lemma in_disc_swap (R c : Q) (x y : Z) : in_disc R c x y = in_disc R c y x.
Proof.
  unfold in_disc. apply Qlt_bool_compat; [apply dist2_swap | reflexivity].
Qed.

(** X2. For every radius [R > 0] the kernel returned by [disckernel] is
    unchanged by a quarter turn and by the two mirror flips. *)
Theorem disckernel_symmetric (R : Q) :
  0 < R ->
  exists k c,
    disckernel R = Ok (k, c) /\
    np_rot90 k = k /\ np_fliplr k = k /\ np_flipud k = k.
Proof.
  intro HR. pose proof (kernel_dim_ge_2 R HR) as HK.
  eexists. eexists. split; [apply disckernel_ok; lia|].
  pose proof (in_disc_mirror R (kernel_dim R)) as Hm.
  pose proof (in_disc_swap R (kernel_centre (kernel_dim R))) as Hs.
  split; [apply mask_rot90; assumption|].
  split; [apply mask_fliplr; assumption|].
  apply mask_flipud; assumption.
Qed.

Lemma disckernel_symmetric_witness :
  0 < 19 /\
  exists k c,
    disckernel 19 = Ok (k, c) /\
    np_rot90 k = k /\ np_fliplr k = k /\ np_flipud k = k.
Proof.
  assert (H : 0 < 19) by reflexivity.
  split; [exact H|]. exact (disckernel_symmetric 19 H).
Defined.

(** ** The cells of a kernel *)










(** ** Radii of at most one pixel *)

Lemma kernel_dim_small (R : Q) :
  0 < R -> R <= 1 ->
  (R <= 1 # 2 /\ kernel_dim R = 2%Z) \/ (1 # 2 < R /\ kernel_dim R = 3%Z).
Proof.
  intros H0 H1. unfold kernel_dim.
  pose proof (Qle_ceiling (2 * (R + (1 # 2)))) as Hle.
  pose proof (Qceiling_lt (2 * (R + (1 # 2)))) as Hlt.
  set (K := Qceiling (2 * (R + (1 # 2)))) in *.
  assert (HK : inject_Z (K - 1) == inject_Z K - 1).
  { unfold Z.sub. rewrite inject_Z_plus. reflexivity. }
  rewrite HK in Hlt.
  destruct (Qlt_le_dec (1 # 2) R) as [Hbig | Hsmall].
  - right. split; [exact Hbig|].
    assert (L : inject_Z 2 < inject_Z K) by (change (inject_Z 2) with 2; lra).
    assert (U : inject_Z K < inject_Z 4) by (change (inject_Z 4) with 4; lra).
    rewrite <- Zlt_Qlt in L, U. lia.
  - left. split; [exact Hsmall|].
    assert (L : inject_Z 1 < inject_Z K) by (change (inject_Z 1) with 1; lra).
    assert (U : inject_Z K < inject_Z 3) by (change (inject_Z 3) with 3; lra).
    rewrite <- Zlt_Qlt in L, U. lia.
Qed.

Lemma in_indices (kdim x : Z) : In x (indices kdim) -> (0 <= x < kdim)%Z.
Proof.
  unfold indices, arange. intro H. apply in_map_iff in H.
  destruct H as [n [<- Hn]]. apply in_seq in Hn. lia.
Qed.

Lemma in_mask (kdim : Z) (test : Z -> Z -> bool) (b : bool) :
  In b (concat (mask kdim test)) ->
  exists x y, (0 <= x < kdim)%Z /\ (0 <= y < kdim)%Z /\ b = test x y.
Proof.
  intro H. apply in_concat in H. destruct H as [row [Hrow Hb]].
  unfold mask in Hrow. apply in_map_iff in Hrow.
  destruct Hrow as [x [<- Hx]]. apply in_map_iff in Hb.
  destruct Hb as [y [<- Hy]].
  exists x, y. split; [apply in_indices, Hx|].
  split; [apply in_indices, Hy | reflexivity].
Qed.

(** A membership test that fails everywhere gives the all-zero kernel. *)
Lemma empty_mask_kernel (kdim : Z) (test : Z -> Z -> bool) :
  (0 < kdim)%Z ->
  (forall x y, (0 <= x < kdim)%Z -> (0 <= y < kdim)%Z -> test x y = false) ->
  forall i j, (i < Z.to_nat kdim)%nat -> (j < Z.to_nat kdim)%nat ->
    exists q, cell (zero_mean (mask kdim test)) i j = Fin q /\ q == 0.
Proof.
  intros HK Hfalse i j Hi Hj.
  assert (Hn : size (mask kdim test) <> O) by (rewrite size_mask; nia).
  rewrite cell_kernel by assumption.
  rewrite astype_float_finite, np_mean_finite
    by (rewrite size_map_map; exact Hn).
  rewrite Hfalse by lia.
  eexists. split; [reflexivity|].
  set (x := map (map (fun b : bool => if b then 1 else 0)) (mask kdim test)).
  assert (Hs : Qsum (concat x) == inject_Z (Z.of_nat (length (concat x))) * 0).
  { apply Qsum_const. intros a Ha. unfold x in Ha.
    rewrite concat_map_map in Ha. apply in_map_iff in Ha.
    destruct Ha as [b [<- Hb]]. apply in_mask in Hb.
    destruct Hb as [u [v [Hu [Hv ->]]]]. rewrite Hfalse by assumption.
    reflexivity. }
  rewrite Hs. field. apply inject_nat_nonzero.
  unfold x. rewrite size_map_map. exact Hn.
Qed.

Lemma sq_nonneg (a : Q) : 0 <= sq a.
Proof. unfold sq. nra. Qed.

Ltac ring_test_fails Ec :=
  unfold in_ring; apply andb_false_iff;
  ((left; apply Qlt_bool_false; unfold dist2, sq; rewrite Ec;
    unfold inject_Z; nra)
   || (right; apply Qlt_bool_false; unfold dist2, sq; rewrite Ec;
       unfold inject_Z; nra)).

Lemma in_ring_small_radius (R w : Q) (x y : Z) :
  0 < R -> R <= 1 ->
  (0 <= x < kernel_dim R)%Z -> (0 <= y < kernel_dim R)%Z ->
  in_ring R w (kernel_centre (kernel_dim R)) x y = false.
Proof.
  intros H0 H1 Hx Hy.
  assert (Hsq : 0 <= (R - w) * (R - w)) by (apply (sq_nonneg (R - w))).
  destruct (kernel_dim_small R H0 H1) as [[HR E] | [HR E]];
    rewrite E in *.
  - assert (Ec : kernel_centre 2 == 1 # 2) by (vm_compute; reflexivity).
    assert (Hx' : x = 0%Z \/ x = 1%Z) by lia.
    assert (Hy' : y = 0%Z \/ y = 1%Z) by lia.
    destruct Hx' as [-> | ->]; destruct Hy' as [-> | ->];
      ring_test_fails Ec.
  - assert (Ec : kernel_centre 3 == 1) by (vm_compute; reflexivity).
    assert (Hx' : x = 0%Z \/ x = 1%Z \/ x = 2%Z) by lia.
    assert (Hy' : y = 0%Z \/ y = 1%Z \/ y = 2%Z) by lia.
    destruct Hx' as [-> | [-> | ->]]; destruct Hy' as [-> | [-> | ->]];
      ring_test_fails Ec.
Qed.



(** ** Ring of full width on a grid of even dimension *)

Lemma inject_Z_minus (a b : Z) : inject_Z (a - b) == inject_Z a - inject_Z b.
Proof. unfold Z.sub. rewrite inject_Z_plus, inject_Z_opp. reflexivity. Qed.

Lemma dist2_positive_even (kdim x y : Z) :
  Z.even kdim = true -> 0 < dist2 (kernel_centre kdim) x y.
Proof.
  intro He. apply Z.even_spec in He. destruct He as [m Hm].
  set (t := (2 * x - (kdim - 1))%Z).
  assert (Ht0 : (t <= -1 \/ 1 <= t)%Z) by (unfold t; lia).
  assert (Ht : (1 <= t * t)%Z) by (destruct Ht0; nia).
  assert (Hq : inject_Z 1 <= inject_Z t * inject_Z t).
  { rewrite <- inject_Z_mult, <- Zle_Qle. exact Ht. }
  assert (Et : inject_Z t == 2 * inject_Z x - (inject_Z kdim - 1)).
  { unfold t. rewrite inject_Z_minus, inject_Z_mult, inject_Z_minus.
    reflexivity. }
  assert (Ex : inject_Z x - kernel_centre kdim == inject_Z t / 2).
  { unfold kernel_centre. rewrite Et, inject_Z_minus.
    change (inject_Z 1) with 1. field. }
  unfold dist2, sq. rewrite Ex.
  change (inject_Z 1) with 1 in Hq.
  assert (Hy : 0 <= (inject_Z y - kernel_centre kdim)
                    * (inject_Z y - kernel_centre kdim))
    by (apply (sq_nonneg (inject_Z y - kernel_centre kdim))).
  assert (Hx : 1 # 4 <= inject_Z t / 2 * (inject_Z t / 2)).
  { assert (E : inject_Z t / 2 * (inject_Z t / 2)
                == inject_Z t * inject_Z t / 4) by field.
    rewrite E. apply Qle_shift_div_l; [reflexivity | lra]. }
  lra.
Qed.

(** X7. When the grid dimension [ceil(2(R+0.5))] is even, as it is for the
    notebook's [R = 19.5], the ring of full width [w = R] is the disc:
    [circkernel(R, R)] returns exactly what [disckernel(R)] returns. *)
Theorem circkernel_full_width_even (R : Q) :
  Z.even (kernel_dim R) = true -> circkernel R R = disckernel R.
Proof.
  intro He. unfold circkernel, disckernel.
  destruct (kernel_dim R <? 0)%Z; [reflexivity|].
  f_equal. f_equal. f_equal. unfold mask.
  apply map_ext. intro x. apply map_ext. intro y.
  unfold in_ring, in_disc.
  replace (Qlt_bool (sq (R - R)) (dist2 (kernel_centre (kernel_dim R)) x y))
    with true; [apply andb_true_r|].
  symmetry. apply Qlt_bool_iff.
  pose proof (dist2_positive_even (kernel_dim R) x y He) as Hd.
  assert (E : sq (R - R) == 0) by (unfold sq; ring).
  rewrite E. exact Hd.
Qed.

Lemma circkernel_full_width_even_witness :
  Z.even (kernel_dim (39 # 2)) = true /\
  circkernel (39 # 2) (39 # 2) = disckernel (39 # 2).
Proof.
  assert (H : Z.even (kernel_dim (39 # 2)) = true) by reflexivity.
  split; [exact H|]. exact (circkernel_full_width_even (39 # 2) H).
Defined.



(* ================================================================== *)
(** * Further properties of the normalisation *)

Lemma sub_scalar_shape (g : grid) (s : fval) :
  Forall2 (fun r r' => length r = length r') (sub_scalar g s) g.
Proof.
  unfold sub_scalar. induction g as [|r g IH]; simpl; constructor.
  - apply length_map.
  - exact IH.
Qed.

(** X9. The normalisation raises, with [ValueError], exactly on an image
    without cells; on every other image, whatever values it holds, it
    returns a grid with the dimensions of the image. *)
Theorem normalize_raises_iff_empty (image : grid) :
  (normalize image = Raise ValueError <-> size image = O) /\
  (size image <> O ->
   exists g, normalize image = Ok g /\
             Forall2 (fun r r' => length r = length r') g image).
Proof.
  unfold normalize. cbv zeta.
  set (image1 := sub_scalar image (np_mean image)).
  pose proof (sub_scalar_shape image (np_mean image)) as Hshape.
  fold image1 in Hshape.
  pose proof (Forall2_size _ _ Hshape) as Hsize.
  unfold np_max, size in *.
  destruct (concat image1) as [|v vs] eqn:E; cbn [max1 bind].
  - simpl in Hsize. split.
    + split; [intros _; congruence | reflexivity].
    + intro H. exfalso. apply H. congruence.
  - simpl in Hsize. split.
    + split; [discriminate | intro H; rewrite H in Hsize; discriminate].
    + intros _. eexists. split; [reflexivity|].
      apply (Forall2_shape_trans _ image1); [apply div_scalar_shape|].
      exact Hshape.
Qed.

Lemma normalize_raises_iff_empty_witness :
  normalize [[]; []] = Raise ValueError /\
  exists g, normalize [[NaN; PInf]; [Fin 3; NInf]] = Ok g /\
            Forall2 (fun r r' => length r = length r') g
                    [[NaN; PInf]; [Fin 3; NInf]].
Proof.
  destruct (normalize_raises_iff_empty [[]; []]) as [[_ H1] _].
  destruct (normalize_raises_iff_empty [[NaN; PInf]; [Fin 3; NInf]])
    as [_ H2].
  split; [apply H1; reflexivity | apply H2; discriminate].
Defined.

Lemma map_map_shape {A B : Type} (f : A -> B) (g : list (list A)) :
  Forall2 (fun r r' => length r = length r') (map (map f) g) g.
Proof.
  induction g as [|r g IH]; simpl; constructor.
  - apply length_map.
  - exact IH.
Qed.

Lemma normalize_eval (x : list (list Q)) :
  size x <> O ->
  let mu := Qsum (concat x) / inject_Z (Z.of_nat (size x)) in
  exists M,
    In M (map (fun v => v - mu) (concat x)) /\
    (forall v, In v (concat x) -> v - mu <= M) /\
    normalize (finite x)
    = Ok (map (map (fun v => fdiv (Fin (v - mu)) (Fin M))) x).
Proof.
  intros Hn mu.
  set (x1 := map (map (fun v => v - mu)) x).
  assert (Hn1 : size x1 <> O) by (unfold x1; rewrite size_map_map; exact Hn).
  destruct (np_max_finite x1 Hn1) as [M [HM [HinM HallM]]].
  unfold x1 in HinM, HallM. rewrite concat_map_map in HinM, HallM.
  exists M. split; [exact HinM|]. split.
  - intros v Hv. apply HallM. apply (in_map (fun v => v - mu)), Hv.
  - unfold normalize. cbv zeta.
    rewrite (normalize_step1 x Hn). fold mu x1. rewrite HM. cbn [bind].
    unfold div_scalar, finite, x1. rewrite !map_map. f_equal.
    apply map_ext. intro row. rewrite !map_map. reflexivity.
Qed.

(** X10. On every image that is not constant the normalisation does what
    its comment says: it returns a finite grid whose entries add up to
    zero (zero mean), none of which exceeds 1, and one of which is 1. *)
Theorem normalize_zero_mean_unit_max (x : list (list Q)) (a b : Q) :
  In a (concat x) -> In b (concat x) -> ~ a == b ->
  exists y,
    normalize (finite x) = Ok (finite y) /\
    Forall2 (fun r r' => length r = length r') y x /\
    Qsum (concat y) == 0 /\
    (forall v, In v (concat y) -> v <= 1) /\
    (exists v, In v (concat y) /\ v == 1).
Proof.
  intros Ha Hb Hab.
  pose proof (in_concat_size _ _ Ha) as Hn.
  set (mu := Qsum (concat x) / inject_Z (Z.of_nat (size x))).
  set (x1 := map (map (fun v => v - mu)) x).
  assert (Hn1 : size x1 <> O) by (unfold x1; rewrite size_map_map; exact Hn).
  destruct (np_max_finite x1 Hn1) as [M [HM [HinM HallM]]].
  pose proof (max_deviation_positive x Hn a b M Ha Hb Hab HallM) as Hpos.
  exists (map (map (fun v => v / M)) x1).
  split; [apply (normalize_finite x Hn M HM); lra|].
  split; [|split; [|split]].
  - apply (Forall2_shape_trans _ x1); apply map_map_shape.
  - rewrite concat_map_map, Qsum_scale.
    assert (Hs : Qsum (concat x1) == 0) by (apply (sum_x1 x Hn)).
    rewrite Hs. field. lra.
  - intros v Hv. rewrite concat_map_map in Hv. apply in_map_iff in Hv.
    destruct Hv as [d [<- Hd]]. specialize (HallM d Hd).
    apply Qle_shift_div_r; lra.
  - exists (M / M). split.
    + rewrite concat_map_map. exact (in_map (fun v => v / M) _ M HinM).
    + field. lra.
Qed.

Lemma normalize_zero_mean_unit_max_witness :
  exists y,
    normalize (finite [[1; 2]; [3; 6]]) = Ok (finite y) /\
    Forall2 (fun r r' => length r = length r') y [[1; 2]; [3; 6]] /\
    Qsum (concat y) == 0 /\
    (forall v, In v (concat y) -> v <= 1) /\
    (exists v, In v (concat y) /\ v == 1).
Proof.
  apply (normalize_zero_mean_unit_max [[1; 2]; [3; 6]] 1 2).
  - simpl. left. reflexivity.
  - simpl. right. left. reflexivity.
  - intro H. discriminate H.
Defined.

Lemma Qsum_affine (l : list Q) (a b : Q) :
  Qsum (map (fun v => a * v + b) l)
  == a * Qsum l + inject_Z (Z.of_nat (length l)) * b.
Proof.
  induction l as [|q l IH].
  - unfold Qsum. simpl. ring.
  - cbn [map length]. rewrite !Qsum_cons, IH.
    rewrite Nat2Z.inj_succ, <- Z.add_1_r, inject_Z_plus.
    change (inject_Z 1) with 1. ring.
Qed.

(** Dividing after a common positive rescaling gives the same value. *)
Lemma fdiv_scale (s d d' M M' : Q) :
  0 < s -> d' == s * d -> M' == s * M ->
  feq (fdiv (Fin d') (Fin M')) (fdiv (Fin d) (Fin M)).
Proof.
  intros Hs Hd HM. unfold fdiv, Qsign.
  assert (EM : Qeq_bool M' 0 = Qeq_bool M 0).
  { apply eq_true_iff_eq. rewrite !Qeq_bool_iff. split; intro H; nra. }
  assert (Ed : Qeq_bool d' 0 = Qeq_bool d 0).
  { apply eq_true_iff_eq. rewrite !Qeq_bool_iff. split; intro H; nra. }
  assert (Ep : Qlt_bool 0 d' = Qlt_bool 0 d).
  { apply eq_true_iff_eq. rewrite !Qlt_bool_iff. split; intro H; nra. }
  rewrite EM, Ed, Ep.
  destruct (Qeq_bool M 0) eqn:E0.
  - destruct (Qeq_bool d 0); [exact I|].
    destruct (Qlt_bool 0 d); exact I.
  - cbn [feq]. rewrite Hd, HM. field.
    split; [|lra]. intro H. apply Qeq_bool_iff in H. congruence.
Qed.

(** X11. The normalisation does not see a change of brightness or of
    contrast: for [a > 0] the images [x] and [a*x + b] are normalised to
    the same grid, cell for cell. *)
Theorem normalize_affine_invariant (x : list (list Q)) (a b : Q) :
  0 < a -> size x <> O ->
  exists y y',
    normalize (finite x) = Ok y /\
    normalize (finite (map (map (fun v => a * v + b)) x)) = Ok y' /\
    Forall2 (Forall2 feq) y' y.
Proof.
  intros Ha Hn.
  set (x' := map (map (fun v => a * v + b)) x).
  assert (Hn' : size x' <> O) by (unfold x'; rewrite size_map_map; exact Hn).
  destruct (normalize_eval x Hn) as [M [HinM [HallM Hy]]].
  destruct (normalize_eval x' Hn') as [M' [HinM' [HallM' Hy']]].
  set (mu := Qsum (concat x) / inject_Z (Z.of_nat (size x))) in *.
  set (mu' := Qsum (concat x') / inject_Z (Z.of_nat (size x'))) in *.
  assert (Hmu : mu' == a * mu + b).
  { unfold mu', mu, x'. rewrite concat_map_map, Qsum_affine, size_map_map.
    fold (size x). field. apply inject_nat_nonzero, Hn. }
  assert (Hdev : forall v, a * v + b - mu' == a * (v - mu)).
  { intro v. rewrite Hmu. ring. }
  assert (HM : M' == a * M).
  { apply Qle_antisym.
    - apply in_map_iff in HinM'. destruct HinM' as [u [<- Hu]].
      unfold x' in Hu. rewrite concat_map_map in Hu.
      apply in_map_iff in Hu. destruct Hu as [v [<- Hv]].
      rewrite Hdev. specialize (HallM v Hv). nra.
    - apply in_map_iff in HinM. destruct HinM as [v [<- Hv]].
      rewrite <- Hdev. apply HallM'.
      unfold x'. rewrite concat_map_map.
      apply (in_map (fun v => a * v + b)), Hv. }
  eexists. eexists. split; [exact Hy|]. split; [exact Hy'|].
  unfold x'. rewrite map_map.
  apply Forall2_map_map. intro row. rewrite map_map.
  apply Forall2_map_map. intro v.
  apply (fdiv_scale a); [exact Ha | apply Hdev | exact HM].
Qed.

Lemma normalize_affine_invariant_witness :
  exists y y',
    normalize (finite [[1; 2]; [3; 6]]) = Ok y /\
    normalize (finite (map (map (fun v => 10 * v + 5)) [[1; 2]; [3; 6]]))
    = Ok y' /\
    Forall2 (Forall2 feq) y' y.
Proof.
  apply (normalize_affine_invariant [[1; 2]; [3; 6]] 10 5).
  - reflexivity.
  - discriminate.
Defined.

(* ================================================================== *)
(** * Further properties of the refinement *)

Lemma mapM_length {A B : Type} (f : A -> result B) (l : list A)
      (out : list B) :
  mapM f l = Ok out -> length out = length l.
Proof.
  revert out. induction l as [|a l IH]; intros out H; cbn [mapM] in H.
  - injection H as <-. reflexivity.
  - destruct (f a) as [b | e]; cbn [bind] in H; [|discriminate].
    destruct (mapM f l) as [bs | e]; cbn [bind] in H; [|discriminate].
    injection H as <-. simpl. f_equal. apply IH. reflexivity.
Qed.

(** X12. Whenever the last revision of [convcirc] returns, it returns one
    refined coordinate pair for each peak that the previous revision
    returns for the same arguments; and when the previous revision fails,
    so does the last one, with the same exception. *)
Theorem convcirc_one_per_peak (image : grid) (R w thresh : Q) :
  (forall fit, convcirc image R w thresh = Ok fit ->
     exists peaks, convcirc_peaks image R w thresh = Ok peaks /\
                   length fit = length peaks) /\
  (forall e, convcirc_peaks image R w thresh = Raise e ->
             convcirc image R w thresh = Raise e).
Proof.
  unfold convcirc, convcirc_peaks.
  destruct (circkernel R w) as [[ckern c] | e0]; cbn [bind].
  - destruct (correlate image ckern) as [conv | e1]; cbn [bind].
    + split.
      * intros fit H. eexists. split; [reflexivity|].
        apply (mapM_length _ _ _ H).
      * intros e H. discriminate H.
    + split; [intros fit H; discriminate H | intros e H; congruence].
  - split; [intros fit H; discriminate H | intros e H; congruence].
Qed.

Lemma convcirc_one_per_peak_witness :
  exists fit peaks,
    convcirc spots_image 2 1 (55 # 100) = Ok fit /\
    convcirc_peaks spots_image 2 1 (55 # 100) = Ok peaks /\
    length fit = length peaks.
Proof.
  destruct (convcirc_one_per_peak spots_image 2 1 (55 # 100)) as [H _].
  destruct (convcirc spots_image 2 1 (55 # 100)) as [fit | e] eqn:E.
  - destruct (H fit eq_refl) as [peaks [Hp Hl]].
    exists fit, peaks. repeat split; assumption.
  - vm_compute in E. discriminate E.
Defined.

(** X13. For a peak inside a rectangular map, one round of the refinement
    returns if and only if the peak is at least [p = 2] pixels away from
    all four borders; the values held by the map play no part in this. *)
Theorem refine_peak_returns_iff_interior (conv : grid) (H W : nat)
        (x0 y0 : Z) :
  length conv = H -> rectangular W conv ->
  (0 <= x0 < Z.of_nat H)%Z -> (0 <= y0 < Z.of_nat W)%Z ->
  ((exists f, refine_peak conv (x0, y0) = Ok f) <->
   (p <= x0 /\ x0 + p < Z.of_nat H /\ p <= y0 /\ y0 + p < Z.of_nat W)%Z).
Proof.
  intros Hr Hc Hx Hy. split.
  - intros [f Hf].
    destruct (Z_lt_dec x0 p) as [H1 | H1];
      [|destruct (Z_le_dec (Z.of_nat H) (x0 + p)) as [H2 | H2];
        [|destruct (Z_lt_dec y0 p) as [H3 | H3];
          [|destruct (Z_le_dec (Z.of_nat W) (y0 + p)) as [H4 | H4]]]];
      try (rewrite (refine_peak_short conv H W x0 y0 Hr Hc Hx Hy) in Hf;
           [discriminate Hf | tauto]).
    lia.
  - intros [H1 [H2 [H3 H4]]]. unfold refine_peak. cbn [fst snd].
    rewrite (col_window conv H W x0 y0 Hr Hc Hx Hy H1 H2). cbn [bind].
    rewrite centroid_whole by (rewrite length_map; reflexivity).
    cbn [bind].
    rewrite (row_window conv H W x0 y0 Hr Hc Hx H3 H4). cbn [bind].
    rewrite centroid_whole by (rewrite length_map; reflexivity).
    cbn [bind]. eexists. reflexivity.
Qed.

Lemma refine_peak_returns_iff_interior_witness :
  (exists f, refine_peak ones5 (2, 2)%Z = Ok f) /\
  ~ (exists f, refine_peak ones5 (2, 3)%Z = Ok f).
Proof.
  assert (Hr : length ones5 = 5%nat) by reflexivity.
  assert (Hc : rectangular 5 ones5) by (repeat constructor).
  split.
  - apply (refine_peak_returns_iff_interior ones5 5 5 2 2 Hr Hc);
      unfold p; simpl; lia.
  - intro Hf.
    apply (refine_peak_returns_iff_interior ones5 5 5 2 3 Hr Hc) in Hf;
      unfold p in *; simpl in *; lia.
Defined.

Lemma centroid_finite5 (t : Z) (c1 c2 c3 c4 c5 : Q) :
  centroid t [Fin c1; Fin c2; Fin c3; Fin c4; Fin c5]
  = Ok (fdiv (Fin (0 + inject_Z (t + -2) * c1 + inject_Z (t + -1) * c2
                   + inject_Z (t + 0) * c3 + inject_Z (t + 1) * c4
                   + inject_Z (t + 2) * c5))
             (Fin (0 + c1 + c2 + c3 + c4 + c5))).
Proof. rewrite centroid_whole by reflexivity. reflexivity. Qed.




(** X15. A window of finite values that add up to zero does not raise:
    the division returns NaN or an infinity, and that value is stored as
    the refined coordinate. *)
Theorem centroid_zero_sum (t : Z) (c1 c2 c3 c4 c5 : Q) :
  c1 + c2 + c3 + c4 + c5 == 0 ->
  exists f,
    centroid t [Fin c1; Fin c2; Fin c3; Fin c4; Fin c5] = Ok f /\
    forall q, f <> Fin q.
Proof.
  intro Hs. rewrite centroid_finite5. eexists. split; [reflexivity|].
  intro q. unfold fdiv.
  rewrite Qeq_bool_true by lra.
  destruct (Qsign _) as [[|]|]; discriminate.
Qed.

Lemma centroid_zero_sum_witness :
  centroid 7 [Fin 0; Fin 0; Fin 0; Fin 0; Fin 0] = Ok NaN /\
  exists f,
    centroid 7 [Fin 1; Fin (- (1)); Fin 0; Fin (- (1)); Fin 1] = Ok f /\
    forall q, f <> Fin q.
Proof.
  split; [reflexivity|].
  apply (centroid_zero_sum 7 1 (- (1)) 0 (- (1)) 1). reflexivity.
Defined.

(** ** Rescaling the map *)






(** ** Remainders *)




(* ================================================================== *)
(** * The detector at radii of at most one pixel *)

Lemma empty_mask_entries (kdim : Z) (test : Z -> Z -> bool) :
  (0 < kdim)%Z ->
  (forall x y, (0 <= x < kdim)%Z -> (0 <= y < kdim)%Z -> test x y = false) ->
  exists kn, zero_mean (mask kdim test) = finite kn /\
             forall q, In q (concat kn) -> q == 0.
Proof.
  intros HK Hfalse.
  assert (Hn : size (mask kdim test) <> O) by (rewrite size_mask; nia).
  destruct (zero_mean_finite _ Hn) as [x [mu [Hz [Hx Hmu]]]].
  assert (Hx0 : forall v, In v (concat x) -> v == 0).
  { intros v Hv. rewrite Hx, concat_map_map in Hv.
    apply in_map_iff in Hv. destruct Hv as [b [<- Hb]].
    apply in_mask in Hb. destruct Hb as [u [v' [Hu [Hv' ->]]]].
    rewrite Hfalse by assumption. reflexivity. }
  assert (Hmu0 : mu == 0).
  { rewrite Hmu, (Qsum_const _ 0 Hx0). fold (size x). field.
    apply inject_nat_nonzero. rewrite Hx, size_map_map. exact Hn. }
  eexists. split; [exact Hz|].
  intros q Hq. rewrite concat_map_map in Hq. apply in_map_iff in Hq.
  destruct Hq as [v [<- Hv]]. pose proof (Hx0 v Hv) as E.
  rewrite E, Hmu0. ring.
Qed.

Lemma sum1_all_zero (l : list fval) :
  Forall (fun v => exists q, v = Fin q /\ q == 0) l ->
  exists s, sum1 l = Fin s /\ s == 0.
Proof.
  intro H.
  assert (Hqs : exists qs, l = map Fin qs /\ forall q, In q qs -> q == 0).
  { induction H as [|v l [q [-> Hq]] _ [qs [-> Hall]]].
    - exists []. split; [reflexivity | intros q []].
    - exists (q :: qs). split; [reflexivity|].
      intros q' [<- | Hq']; [exact Hq | apply Hall, Hq']. }
  destruct Hqs as [qs [-> Hall]].
  rewrite sum1_Fin. eexists. split; [reflexivity|].
  rewrite (Qsum_const _ 0 Hall). ring.
Qed.

Lemma in_finite_row (kn : list (list Q)) (row : list fval) (v : fval) :
  In row (finite kn) -> In v row ->
  exists q, v = Fin q /\ In q (concat kn).
Proof.
  unfold finite. intros Hrow Hv. apply in_map_iff in Hrow.
  destruct Hrow as [r [<- Hr]]. apply in_map_iff in Hv.
  destruct Hv as [q [<- Hq]]. exists q. split; [reflexivity|].
  apply in_concat. exists r. split; assumption.
Qed.

Lemma convolve_at_zero_kernel (im kn : list (list Q)) (x y : Z) :
  (forall q, In q (concat kn) -> q == 0) ->
  exists s, convolve_at (finite im) (finite kn) x y = Fin s /\ s == 0.
Proof.
  intro Hzero. unfold convolve_at. cbv zeta. apply sum1_all_zero.
  apply Forall_forall. intros v Hv.
  apply in_concat in Hv. destruct Hv as [r [Hr Hv]].
  apply in_map_iff in Hr. destruct Hr as [irow [<- Hirow]].
  apply in_map_iff in Hv. destruct Hv as [jk [<- Hjk]].
  apply in_indexed in Hirow. apply in_indexed in Hjk.
  destruct (in_finite_row kn _ _ Hirow Hjk) as [q [-> Hq]].
  match goal with |- context [pixel (finite im) ?a ?b] =>
    destruct (pixel_finite im a b) as [q' ->]
  end.
  eexists. split; [reflexivity|]. rewrite (Hzero q Hq). ring.
Qed.

Lemma convolve_zero_kernel (im kn : list (list Q)) :
  (forall q, In q (concat kn) -> q == 0) ->
  exists c, convolve (finite im) (finite kn) = finite c /\
            forall q, In q (concat c) -> q == 0.
Proof.
  intro Hzero. destruct (convolve_finite im kn) as [c Hc].
  exists c. split; [exact Hc|].
  intros q Hq.
  assert (Hin : In (Fin q) (concat (convolve (finite im) (finite kn)))).
  { rewrite Hc, concat_finite. apply in_map, Hq. }
  unfold convolve in Hin. apply in_concat in Hin.
  destruct Hin as [r [Hr Hv]].
  apply in_map_iff in Hr. destruct Hr as [xrow [<- _]].
  apply in_map_iff in Hv. destruct Hv as [yv [Hv _]].
  destruct (convolve_at_zero_kernel im kn (fst xrow) (fst yv) Hzero)
    as [s [Hs Hs0]].
  rewrite Hs in Hv. injection Hv as ->. exact Hs0.
Qed.

Lemma value_at_all_nan (g : grid) (a : Z * Z) :
  (forall row v, In row g -> In v row -> v = NaN) -> value_at g a = NaN.
Proof.
  intro H. unfold value_at.
  destruct (nth_error g (Z.to_nat (fst a))) as [row|] eqn:E; [|reflexivity].
  apply nth_error_In in E.
  destruct (nth_in_or_default (Z.to_nat (snd a)) row NaN) as [Hin | Hd];
    [apply (H row _ E Hin) | exact Hd].
Qed.

Lemma filter_none {A : Type} (f : A -> bool) (l : list A) :
  (forall a, f a = false) -> filter f l = [].
Proof.
  intro H. induction l as [|a l IH]; simpl; [reflexivity|].
  rewrite H. exact IH.
Qed.

(** Without a ring there are no peaks. *)
Lemma no_ring_no_peaks (im : list (list Q)) (R w thresh : Q) :
  (0 < kernel_dim R)%Z ->
  (forall x y, (0 <= x < kernel_dim R)%Z -> (0 <= y < kernel_dim R)%Z ->
     in_ring R w (kernel_centre (kernel_dim R)) x y = false) ->
  size im <> O ->
  convcirc_peaks (finite im) R w thresh = Ok [] /\
  convcirc (finite im) R w thresh = Ok [].
Proof.
  intros HK Hfalse Hn.
  destruct (empty_mask_entries (kernel_dim R)
              (in_ring R w (kernel_centre (kernel_dim R))) HK Hfalse)
    as [kn [Hk Hkn]].
  destruct (convolve_zero_kernel im kn Hkn) as [c [Hc Hc0]].
  assert (Hnc : size c <> O).
  { rewrite <- size_finite, <- Hc.
    rewrite (Forall2_size _ _
               (Forall2_shape_trans _ _ _
                  (convolve_shape (finite im) (finite kn)) (finite_shape im))).
    exact Hn. }
  destruct (np_max_finite c Hnc) as [M [HM [HinM _]]].
  assert (Hcorr : correlate (finite im) (finite kn)
                  = Ok (div_scalar (finite c) (Fin M))).
  { unfold correlate. cbv zeta. rewrite Hc, HM. reflexivity. }
  assert (Hnan : forall row v, In row (div_scalar (finite c) (Fin M)) ->
                               In v row -> v = NaN).
  { intros row v Hrow Hv. unfold div_scalar in Hrow.
    apply in_map_iff in Hrow. destruct Hrow as [r [<- Hr]].
    apply in_map_iff in Hv. destruct Hv as [u [<- Hu]].
    destruct (in_finite_row c r u Hr Hu) as [q [-> Hq]].
    unfold fdiv, Qsign.
    rewrite (Qeq_bool_true M 0) by (apply Hc0, HinM).
    rewrite (Qeq_bool_true q 0) by (apply Hc0, Hq).
    reflexivity. }
  assert (Hpeaks : peak_local_max (div_scalar (finite c) (Fin M))
                                  (Qceiling R) thresh = []).
  { unfold peak_local_max. apply filter_none. intro a.
    rewrite (value_at_all_nan _ a Hnan). apply andb_false_r. }
  unfold convcirc_peaks, convcirc.
  rewrite circkernel_ok by lia. cbn [bind]. rewrite Hk, Hcorr. cbn [bind].
  rewrite Hpeaks. split; reflexivity.
Qed.

(** X18. With a radius [0 < R <= 1] the detector finds nothing in any
    non-empty finite image, whatever the width and the threshold: the
    kernel is all zero, the convolution and its maximum are zero, the
    normalised map is NaN everywhere, and both revisions of [convcirc]
    return an empty list without raising. *)
Theorem convcirc_small_radius_no_peaks (im : list (list Q)) (R w thresh : Q) :
  0 < R -> R <= 1 -> size im <> O ->
  convcirc_peaks (finite im) R w thresh = Ok [] /\
  convcirc (finite im) R w thresh = Ok [].
Proof.
  intros H0 H1 Hn. pose proof (kernel_dim_ge_2 R H0) as HK.
  apply no_ring_no_peaks; [lia | | exact Hn].
  intros x y Hx Hy. apply in_ring_small_radius; assumption.
Qed.

Lemma convcirc_small_radius_no_peaks_witness :
  convcirc_peaks spots_image 1 1 (55 # 100) = Ok [] /\
  convcirc spots_image 1 1 (55 # 100) = Ok [].
Proof.
  apply (convcirc_small_radius_no_peaks
           [ blank9; blank9; blank9; [0; 0; 0; 1; 0; 1; 0; 0; 0]; blank9;
             [0; 0; 0; 1; 0; 1; 0; 0; 0]; [0; 0; 0; -(10); 0; 0; 0; 0; 0];
             blank9; blank9 ] 1 1 (55 # 100)).
  - reflexivity.
  - discriminate.
  - discriminate.
Defined.

(** ** Widths outside (0, 2R) *)

Lemma in_ring_degenerate_width (R w c : Q) (x y : Z) :
  0 < R -> w <= 0 \/ 2 * R <= w -> in_ring R w c x y = false.
Proof.
  intros HR Hw. unfold in_ring.
  destruct (Qlt_bool (dist2 c x y) (sq R)) eqn:E1; [|reflexivity].
  apply Qlt_bool_iff in E1. cbn [andb]. apply Qlt_bool_false.
  assert (Hle : sq R <= sq (R - w)).
  { unfold sq. destruct Hw as [Hw | Hw]; nra. }
  lra.
Qed.

(** X19. A width [w <= 0] or [w >= 2R] is accepted, but no cell lies in
    such a ring: for every [R > 0] the kernel is all zero, and on every
    non-empty finite image both revisions of [convcirc] return an empty
    list, whatever the threshold. *)
Theorem convcirc_degenerate_width (im : list (list Q)) (R w thresh : Q) :
  0 < R -> w <= 0 \/ 2 * R <= w -> size im <> O ->
  (exists k c,
     circkernel R w = Ok (k, c) /\
     forall i j, (i < length k)%nat -> (j < length k)%nat ->
       exists q, cell k i j = Fin q /\ q == 0) /\
  convcirc_peaks (finite im) R w thresh = Ok [] /\
  convcirc (finite im) R w thresh = Ok [].
Proof.
  intros HR Hw Hn. pose proof (kernel_dim_ge_2 R HR) as HK.
  assert (Hfalse : forall x y,
             (0 <= x < kernel_dim R)%Z -> (0 <= y < kernel_dim R)%Z ->
             in_ring R w (kernel_centre (kernel_dim R)) x y = false).
  { intros x y _ _. apply in_ring_degenerate_width; assumption. }
  split.
  - eexists. eexists. split; [apply circkernel_ok; lia|].
    rewrite length_zero_mean, length_mask.
    apply empty_mask_kernel; [lia | exact Hfalse].
  - apply no_ring_no_peaks; [lia | exact Hfalse | exact Hn].
Qed.

Lemma convcirc_degenerate_width_witness :
  (exists k c,
     circkernel 2 4 = Ok (k, c) /\
     forall i j, (i < length k)%nat -> (j < length k)%nat ->
       exists q, cell k i j = Fin q /\ q == 0) /\
  convcirc_peaks spots_image 2 4 (55 # 100) = Ok [] /\
  convcirc spots_image 2 4 (55 # 100) = Ok [].
Proof.
  apply (convcirc_degenerate_width
           [ blank9; blank9; blank9; [0; 0; 0; 1; 0; 1; 0; 0; 0]; blank9;
             [0; 0; 0; 1; 0; 1; 0; 0; 0]; [0; 0; 0; -(10); 0; 0; 0; 0; 0];
             blank9; blank9 ] 2 4 (55 # 100)).
  - reflexivity.
  - right. discriminate.
  - discriminate.
Defined.

(** ** Sign of the kernel weights *)





(* ================================================================== *)
(** * Thresholding at a fraction of the mean *)

Lemma Qsum_le_max (l : list Q) (M : Q) :
  (forall v, In v l -> v <= M) ->
  Qsum l <= inject_Z (Z.of_nat (length l)) * M.
Proof.
  induction l as [|q l IH]; intro H.
  - unfold Qsum. simpl. assert (E : 0 * M == 0) by ring.
    rewrite E. apply Qle_refl.
  - rewrite Qsum_cons. cbn [length].
    rewrite Nat2Z.inj_succ, <- Z.add_1_r, inject_Z_plus.
    change (inject_Z 1) with 1.
    pose proof (H q (or_introl eq_refl)).
    pose proof (IH (fun v Hv => H v (or_intror Hv))). lra.
Qed.

Lemma Qsum_nonneg (l : list Q) :
  (forall v, In v l -> 0 <= v) -> 0 <= Qsum l.
Proof.
  induction l as [|q l IH]; intro H.
  - unfold Qsum. simpl. lra.
  - rewrite Qsum_cons.
    pose proof (H q (or_introl eq_refl)).
    pose proof (IH (fun v Hv => H v (or_intror Hv))). lra.
Qed.

Lemma ubyte_image_finite (img : list (list Z)) :
  ubyte_image img = finite (map (map inject_Z) img).
Proof.
  unfold ubyte_image, finite. rewrite map_map. apply map_ext. intro row.
  rewrite map_map. reflexivity.
Qed.

(** X21. For an image of non-negative pixel values and a fraction
    [0 <= f < 1] (0.8 and 0.9 in the notebook), thresholding at [f] times
    the mean keeps at least one pixel exactly when the image is not
    entirely black. *)
Theorem threshold_keeps_a_pixel (f : Q) (img : list (list Z)) :
  0 <= f -> f < 1 ->
  (forall v, In v (concat img) -> (0 <= v)%Z) ->
  (In true (concat (threshold_above f img)) <->
   exists v, In v (concat img) /\ (0 < v)%Z).
Proof.
  intros Hf0 Hf1 Hpos.
  set (x := map (map inject_Z) img).
  assert (Hx : concat x = map inject_Z (concat img))
    by (unfold x; apply concat_map_map).
  assert (Hxpos : forall q, In q (concat x) -> 0 <= q).
  { intros q Hq. rewrite Hx in Hq. apply in_map_iff in Hq.
    destruct Hq as [v [<- Hv]]. change 0 with (inject_Z 0).
    rewrite <- Zle_Qle. apply Hpos, Hv. }
  unfold threshold_above. cbv zeta. rewrite concat_map_map.
  destruct (Nat.eq_dec (size img) O) as [Hz | Hn].
  { unfold size in Hz. apply length_zero_iff_nil in Hz. rewrite Hz. simpl.
    split; [intros [] | intros [v [[] _]]]. }
  assert (Hnx : size x <> O) by (unfold x; rewrite size_map_map; exact Hn).
  rewrite ubyte_image_finite. fold x. rewrite (np_mean_finite x Hnx).
  cbn [fmul]. set (mu := Qsum (concat x) / inject_Z (Z.of_nat (size x))).
  assert (Hnpos : 0 < inject_Z (Z.of_nat (size x))).
  { change 0 with (inject_Z 0). rewrite <- Zlt_Qlt. lia. }
  assert (Hmu0 : 0 <= mu).
  { unfold mu. apply Qle_shift_div_l; [exact Hnpos|].
    pose proof (Qsum_nonneg _ Hxpos). lra. }
  split.
  - intro Hin. apply in_map_iff in Hin. destruct Hin as [v [Hv Hin]].
    exists v. split; [exact Hin|].
    cbn [flt] in Hv. apply Qlt_bool_iff in Hv.
    assert (Hq : inject_Z 0 < inject_Z v).
    { change (inject_Z 0) with 0. nra. }
    rewrite <- Zlt_Qlt in Hq. exact Hq.
  - intros [v [Hin Hv]].
    destruct (max1_Fin (concat x)) as [M [_ [HinM HallM]]].
    { intro E. apply Hnx. unfold size. rewrite E. reflexivity. }
    assert (HvM : inject_Z v <= M).
    { apply HallM. rewrite Hx. apply in_map, Hin. }
    assert (HMpos : 0 < M).
    { assert (Hq : inject_Z 0 < inject_Z v) by (rewrite <- Zlt_Qlt; exact Hv).
      change (inject_Z 0) with 0 in Hq. lra. }
    assert (HmuM : mu <= M).
    { unfold mu. apply Qle_shift_div_r; [exact Hnpos|].
      pose proof (Qsum_le_max _ M HallM) as Hs. fold (size x) in Hs. lra. }
    rewrite Hx in HinM. apply in_map_iff in HinM.
    destruct HinM as [u [Hu HinU]].
    apply in_map_iff. exists u. split; [|exact HinU].
    cbn [flt]. apply Qlt_bool_iff. rewrite Hu. nra.
Qed.

Lemma threshold_keeps_a_pixel_witness :
  In true (concat (threshold_above (8 # 10) [[0; 0; 200]; [0; 255; 0]]%Z)) /\
  ~ In true (concat (threshold_above (8 # 10) [[0; 0; 0]; [0; 0; 0]]%Z)).
Proof.
  split.
  - apply (threshold_keeps_a_pixel (8 # 10) [[0; 0; 200]; [0; 255; 0]]%Z).
    + discriminate.
    + reflexivity.
    + intros v Hv. simpl in Hv.
      repeat (destruct Hv as [<- | Hv]; [lia|]). destruct Hv.
    + exists 200%Z. split; [simpl; tauto | lia].
  - intro H.
    apply (threshold_keeps_a_pixel (8 # 10) [[0; 0; 0]; [0; 0; 0]]%Z) in H.
    + destruct H as [v [Hv Hp]]. simpl in Hv.
      repeat (destruct Hv as [<- | Hv]; [lia|]). destruct Hv.
    + discriminate.
    + reflexivity.
    + intros v Hv. simpl in Hv.
      repeat (destruct Hv as [<- | Hv]; [lia|]). destruct Hv.
Defined.
